(** * CKR-Lang: a shallow embedding of [ckr_lang/core.py]

    The interpreter of [core.py] is embedded as executable Rocq functions:
    the lexer ([CKRLexer.clean_code], [CKRLexer.tokenize]), the parser
    ([CKRParser.parse]) and the evaluator ([CKREvaluator.run]).

    Data model.
    - A Python [str] is a sequence of Unicode code points: [list N].
      Keyword literals are written as UTF-8 text and decoded by [u].
    - A Python [int] is unbounded: [Z].
    - [self.variables] (a [defaultdict(int)]) and [labels] (a [dict]) are
      finite maps [gmap]; the default-on-read of the [defaultdict] is written
      out where the source indexes the store directly.
    - A raised exception is a result value that carries the machine state
      at the point of the [raise], since the store is mutated in place.
    - The host is CPython with a 32-bit C [int], where [chr] converts its
      argument to a C [int] before the range check, and the standard
      output is a UTF-8 text stream with the strict error handler. *)

From Stdlib Require Import String Ascii ZArith NArith Lia.
From stdpp Require Import gmap list fin_maps.

Abbreviation str := (list N).

(** ** Python string primitives used by [core.py] *)
Module PyStr.

Local Open Scope N_scope.

Definition bytes_of (s : string) : list N :=
  List.map N_of_ascii (list_ascii_of_string s).

(** UTF-8 decoding of a literal: [pending] continuation bytes are still
    expected for the code point accumulated in [acc]. *)
Fixpoint utf8_go (pending : nat) (acc : N) (bs : list N) : str :=
  match bs with
  | [] => []
  | b :: rest =>
    match pending with
    | O =>
      if b <? 128 then b :: utf8_go O 0 rest
      else if b <? 224 then utf8_go 1%nat (N.land b 31) rest
      else if b <? 240 then utf8_go 2%nat (N.land b 15) rest
      else utf8_go 3%nat (N.land b 7) rest
    | S k =>
      let acc' := acc * 64 + N.land b 63 in
      match k with
      | O => acc' :: utf8_go O 0 rest
      | S _ => utf8_go k acc' rest
      end
    end
  end.

Definition u (s : string) : str := utf8_go O 0 (bytes_of s).

(** [str.isspace] on one code point (the Unicode white space of CPython). *)
Definition isspace (c : N) : bool :=
  ((9 <=? c) && (c <=? 13)) || ((28 <=? c) && (c <=? 32))
  || (c =? 133) || (c =? 160) || (c =? 5760)
  || ((8192 <=? c) && (c <=? 8202))
  || (c =? 8232) || (c =? 8233) || (c =? 8239) || (c =? 8287)
  || (c =? 12288).

(** Line boundaries of [str.splitlines]. *)
Definition is_linebreak (c : N) : bool :=
  ((10 <=? c) && (c <=? 13)) || ((28 <=? c) && (c <=? 30))
  || (c =? 133) || (c =? 8232) || (c =? 8233).

Fixpoint lstrip (s : str) : str :=
  match s with
  | [] => []
  | c :: rest => if isspace c then lstrip rest else s
  end.

Definition rstrip (s : str) : str := rev (lstrip (rev s)).

(** [s.strip()] *)
Definition strip (s : str) : str := rstrip (lstrip s).

(** [s.split()]: maximal runs of non-space code points. *)
Fixpoint split_go (cur : str) (s : str) : list str :=
  match s with
  | [] => match cur with [] => [] | _ :: _ => [cur] end
  | c :: rest =>
    if isspace c
    then match cur with
         | [] => split_go [] rest
         | _ :: _ => cur :: split_go [] rest
         end
    else split_go (cur ++ [c]) rest
  end.

Definition split (s : str) : list str := split_go [] s.

(** [s.split(sep)] for a one-character separator. *)
Fixpoint split_on_go (sep : N) (cur : str) (s : str) : list str :=
  match s with
  | [] => [cur]
  | c :: rest =>
    if c =? sep then cur :: split_on_go sep [] rest
    else split_on_go sep (cur ++ [c]) rest
  end.

Definition split_on (sep : N) (s : str) : list str := split_on_go sep [] s.

(** [s.splitlines()]: [after_cr] remembers that the previous character
    was a carriage return, so that a line feed right after it belongs to
    the same boundary. *)
Fixpoint splitlines_go (after_cr : bool) (cur : str) (s : str) : list str :=
  match s with
  | [] => match cur with [] => [] | _ :: _ => [cur] end
  | c :: rest =>
    if after_cr && (c =? 10) then splitlines_go false cur rest
    else if is_linebreak c then cur :: splitlines_go (c =? 13) [] rest
    else splitlines_go false (cur ++ [c]) rest
  end.

Definition splitlines (s : str) : list str := splitlines_go false [] s.

(** [sep.join(parts)] *)
Fixpoint join (sep : str) (parts : list str) : str :=
  match parts with
  | [] => []
  | [p] => p
  | p :: rest => p ++ sep ++ join sep rest
  end.

(** [hay.startswith(needle)] *)
Fixpoint startswith (needle hay : str) : bool :=
  match needle, hay with
  | [], _ => true
  | _ :: _, [] => false
  | a :: needle', b :: hay' => (a =? b) && startswith needle' hay'
  end.

(** [hay.find(needle)], [None] for the -1 of Python; [hay.index(needle)]
    raises [ValueError] exactly when this is [None]. *)
Fixpoint find (needle hay : str) : option nat :=
  if startswith needle hay then Some O
  else match hay with
       | [] => None
       | _ :: hay' => S <$> find needle hay'
       end.

(** [needle in hay] *)
Definition contains (needle hay : str) : bool :=
  match find needle hay with Some _ => true | None => false end.

(** [s.replace(needle, "")] for a non-empty [needle]: occurrences are
    removed left to right without overlap; [skip] counts the characters
    of the current occurrence still to be dropped. *)
Fixpoint remove_go (needle : str) (skip : nat) (s : str) : str :=
  match s with
  | [] => []
  | c :: rest =>
    match skip with
    | S k => remove_go needle k rest
    | O =>
      if startswith needle s
      then remove_go needle (pred (length needle)) rest
      else c :: remove_go needle O rest
    end
  end.

Definition remove_all (needle s : str) : str := remove_go needle O s.

(** [s[i:j]] for [0 <= i]. *)
Definition slice (i j : nat) (s : str) : str := take (j - i) (drop i s).

(** [xs[i]] of a Python list, with negative indices counted from the end;
    [None] is [IndexError]. *)
Definition index {A} (xs : list A) (i : Z) : option A :=
  if (0 <=? i)%Z then xs !! Z.to_nat i
  else if (- Z.of_nat (length xs) <=? i)%Z
       then xs !! Z.to_nat (Z.of_nat (length xs) + i)
       else None.

End PyStr.

Import PyStr.

(** ** Constants and configuration *)

Definition NAME_ZERO : str := Eval vm_compute in u "부들부들".
Definition NAME_MINUS : str := Eval vm_compute in u "뾰족뾰족".
Definition NAME_PLUS : str := Eval vm_compute in u "폭신폭신".

Definition CONSTANTS : gmap str Z :=
  list_to_map [(NAME_ZERO, 0%Z); (NAME_MINUS, (-1)%Z); (NAME_PLUS, 1%Z)].

Definition START_MARKER : str :=
  Eval vm_compute in u "흑백요리사2 히든백수저 최강록".
Definition END_MARKER : str :=
  Eval vm_compute in u "백수저 최강록 우승".

(** The causes of a [CKRRuntimeError], one per [raise] site of the
    evaluator. *)
Inductive runtime_cause :=
| UndefinedVariable (name : str)
| ConstantMutation (name : str)
| MissingLabel (name : str)
| UnknownCommand (cmd : str).

(** Exceptions: the two [CKRError] subclasses, and two of the host
    language that the evaluator does not catch: the [IndexError] of an
    index outside a list and the [OverflowError] of [chr] on an argument
    beyond the C [int]. *)
Inductive exn :=
| CKRSyntaxError
| CKRRuntimeError (cause : runtime_cause)
| IndexError
| OverflowError.

(** ** 1. Lexer *)
Module CKRLexer.

Definition DQUOTE : N := 34%N.
Definition SQUOTE : N := 39%N.

Definition is_quote (c : N) : bool := (c =? DQUOTE)%N || (c =? SQUOTE)%N.

Definition occurs (c : N) (s : str) : bool := existsb (N.eqb c) s.

(** The [re.sub] of [clean_code]: every match of a double quote, any
    characters but a double quote, and a double quote (or the same with
    single quotes) is replaced by the empty string, with [re.DOTALL].
    The scan is left to right. Outside a match ([inside = None]) a quote
    opens a match exactly when the same quote occurs later; inside a
    match opened by [q] everything up to and including the next [q] is
    deleted, line breaks included. *)
Fixpoint remove_quoted_go (inside : option N) (s : str) : str :=
  match s with
  | [] => []
  | c :: rest =>
    match inside with
    | Some q =>
      if (c =? q)%N then remove_quoted_go None rest
      else remove_quoted_go (Some q) rest
    | None =>
      if is_quote c && occurs c rest
      then remove_quoted_go (Some c) rest
      else c :: remove_quoted_go None rest
    end
  end.

Definition remove_quoted (raw_code : str) : str :=
  remove_quoted_go None raw_code.


(** Step 2 of [clean_code]: the text between the markers. *)
Definition extract_core (no_comment_code : str) : exn + str :=
  match find START_MARKER no_comment_code with
  | None => inl CKRSyntaxError
  | Some i =>
    let start_idx := (i + length START_MARKER)%nat in
    match find END_MARKER no_comment_code with
    | None => inl CKRSyntaxError
    | Some end_idx =>
      if bool_decide (end_idx ≤ start_idx)%nat then inl CKRSyntaxError
      else inr (slice start_idx end_idx no_comment_code)
    end
  end.

Definition clean_code (raw_code : str) : exn + str :=
  extract_core (remove_quoted raw_code).

Definition KW_ADD : str := Eval vm_compute in u "조려".
Definition KW_SUB : str := Eval vm_compute in u "조린다".
Definition KW_MUL : str := Eval vm_compute in u "조리고".
Definition KW_NEG : str := Eval vm_compute in u "앙".
Definition KW_PRINT : str := Eval vm_compute in u "을".
Definition KW_JUMP : str := Eval vm_compute in u "조림핑".

Definition SUFFIX_KEYWORDS : gset str :=
  {[ KW_ADD; KW_SUB; KW_MUL; KW_NEG; KW_PRINT; KW_JUMP ]}.
Definition PREFIX_KEYWORD : str := Eval vm_compute in u "나야".

(** [token in SUFFIX_KEYWORDS] *)
Definition is_suffix (token : str) : bool :=
  bool_decide (token ∈ SUFFIX_KEYWORDS).

(** [next_token in SUFFIX_KEYWORDS], false when [next_token] is [None]. *)
Definition next_is_suffix (next_token : option str) : bool :=
  match next_token with
  | Some n => is_suffix n
  | None => false
  end.

(** [buffer and buffer[0] == PREFIX_KEYWORD] *)
Definition prefix_started (buffer : list str) : bool :=
  match buffer with
  | [] => false
  | b :: _ => bool_decide (b = PREFIX_KEYWORD)
  end.

(** [grouped_instructions.append(buffer)] guarded by [if buffer:]. *)
Definition flush (grouped : list (list str)) (buffer : list str)
  : list (list str) :=
  match buffer with
  | [] => grouped
  | _ :: _ => grouped ++ [buffer]
  end.

(** The inner loop of [tokenize] over the tokens of one line, from the
    state [(grouped_instructions, buffer)]; the lookahead is the head of
    the tokens still to be read. *)
Fixpoint group_tokens (grouped : list (list str)) (buffer : list str)
         (tokens : list str) : list (list str) * list str :=
  match tokens with
  | [] => (grouped, buffer)
  | token :: rest =>
    let next_token := head rest in
    if is_suffix token then
      group_tokens (grouped ++ [buffer ++ [token]]) [] rest
    else if bool_decide (token = PREFIX_KEYWORD) then
      group_tokens (flush grouped buffer) [token] rest
    else if next_is_suffix next_token then
      if prefix_started buffer
      then group_tokens (grouped ++ [buffer]) [token] rest
      else group_tokens grouped (buffer ++ [token]) rest
    else group_tokens grouped (buffer ++ [token]) rest
  end.

(** One iteration of [for line in start_lines]. *)
Definition tokenize_line (grouped : list (list str)) (line : str)
  : list (list str) :=
  let '(grouped', buffer) := group_tokens grouped [] (split line) in
  flush grouped' buffer.

(** [[line.strip() for line in core_code.splitlines() if line.strip()]] *)
Definition start_lines (core_code : str) : list str :=
  strip <$> filter (λ line, strip line ≠ []) (splitlines core_code).

Definition tokenize_core (core_code : str) : list (list str) :=
  foldl tokenize_line [] (start_lines core_code).

Definition tokenize (raw_code : str) : exn + list (list str) :=
  match clean_code raw_code with
  | inl e => inl e
  | inr core_code => inr (tokenize_core core_code)
  end.

End CKRLexer.

(** ** 2. Parser *)
Module CKRParser.

Record instruction := Instruction { line : str; tokens : list str }.

Definition LABEL_KEYWORD : str := Eval vm_compute in u "연쇄조림마".
Definition SPACE : str := [32%N].

(** The body of [for tokens in instruction_groups] on the pair
    [(instructions, labels)]. *)
Definition parse_group (acc : list instruction * gmap str Z)
           (tokens : list str) : list instruction * gmap str Z :=
  let '(instructions, labels) := acc in
  match tokens with
  | [] => acc
  | first :: _ =>
    if startswith LABEL_KEYWORD first then
      let dots := strip (remove_all LABEL_KEYWORD first) in
      (instructions, <[dots := Z.of_nat (length instructions)]> labels)
    else
      (instructions ++ [Instruction (join SPACE tokens) tokens], labels)
  end.

Definition parse (instruction_groups : list (list str))
  : list instruction * gmap str Z :=
  foldl parse_group ([], ∅) instruction_groups.

End CKRParser.

(** ** 3. Evaluator *)
Module CKREvaluator.

Import CKRLexer CKRParser.

(** The evaluator object ([self.variables], [self.pc]) together with the
    characters written to standard output so far. [self.debug] is taken
    at its default [False]. *)
Record machine := Machine {
  variables : gmap str Z;
  pc : Z;
  output : str
}.

(** The result of running a piece of the evaluator: normal completion
    with the new machine, or an exception with the machine as it is when
    the exception is raised. *)
Inductive result :=
| Next (m : machine)
| Raise (e : exn) (m : machine).

Definition KW_EQ : str := Eval vm_compute in u "조림인간".
Definition KW_GT : str := Eval vm_compute in u "욕망의조림인간".
Definition COMMA : N := 44%N.
Definition QUESTION_MARK : N := 63%N.

(** [name in CONSTANTS] *)
Definition is_constant (name : str) : bool :=
  bool_decide (is_Some (CONSTANTS !! name)).

Definition get_val (vars : gmap str Z) (name : str) : exn + Z :=
  match CONSTANTS !! name with
  | Some v => inr v
  | None =>
    match vars !! name with
    | Some v => inr v
    | None => inl (CKRRuntimeError (UndefinedVariable name))
    end
  end.

Definition set_val (vars : gmap str Z) (name : str) (value : Z)
  : exn + gmap str Z :=
  if is_constant name then inl (CKRRuntimeError (ConstantMutation name))
  else inr (<[name := value]> vars).

(** [check_mutable]: [Some e] when it raises [e]. *)
Definition check_mutable (name : str) : option exn :=
  if is_constant name then Some (CKRRuntimeError (ConstantMutation name))
  else None.

(** [self.variables[name]] in a read position: a [defaultdict(int)]
    inserts 0 under a missing key and returns it. *)
Definition defaultdict_get (vars : gmap str Z) (name : str)
  : Z * gmap str Z :=
  match vars !! name with
  | Some v => (v, vars)
  | None => (0%Z, <[name := 0%Z]> vars)
  end.

Definition parse_subjects (subject_chunk : str) : list str :=
  match subject_chunk with
  | [] => []
  | _ :: _ =>
    filter (λ s, s ≠ []) (strip <$> split_on COMMA subject_chunk)
  end.

(** [[self.get_val(s) for s in subjects]], also the order in which the
    generator expressions and the loop of the arithmetic commands read
    their subjects: the first failing read raises. *)
Fixpoint get_vals (vars : gmap str Z) (subjects : list str)
  : exn + list Z :=
  match subjects with
  | [] => inr []
  | s :: rest =>
    match get_val vars s with
    | inl e => inl e
    | inr v =>
      match get_vals vars rest with
      | inl e => inl e
      | inr vs => inr (v :: vs)
      end
    end
  end.

Definition sum (values : list Z) : Z := foldl Z.add 0%Z values.
Definition product (values : list Z) : Z := foldl Z.mul 1%Z values.

(** The comparison of a conditional jump on the resolved [values]. *)
Definition condition_met (cond_op : str) (values : list Z) : bool :=
  match values with
  | [] => false
  | base :: others =>
    if bool_decide (cond_op = KW_EQ) then
      match others with
      | [] => (base =? 0)%Z
      | _ :: _ => forallb (λ v, (v =? base)%Z) values
      end
    else if bool_decide (cond_op = KW_GT) then
      match others with
      | [] => (base >? 0)%Z
      | _ :: _ => forallb (λ v, (base >? v)%Z) others
      end
    else true
  end.

(** [tokens[:-k]] *)
Definition drop_last (k : nat) (tokens : list str) : list str :=
  take (length tokens - k) tokens.

(** The [for s in subjects] loop of the declare command. *)
Fixpoint declare_loop (subjects : list str) (m : machine) : result :=
  match subjects with
  | [] => Next m
  | s :: rest =>
    match check_mutable s with
    | Some e => Raise e m
    | None =>
      declare_loop rest
        (Machine (<[s := 0%Z]> (variables m)) (pc m) (output m))
    end
  end.

(** The [for s in subjects] loop of the negate command. *)
Fixpoint negate_loop (subjects : list str) (m : machine) : result :=
  match subjects with
  | [] => Next m
  | s :: rest =>
    match check_mutable s with
    | Some e => Raise e m
    | None =>
      let '(v, vars) := defaultdict_get (variables m) s in
      negate_loop rest (Machine (<[s := (- v)%Z]> vars) (pc m) (output m))
    end
  end.

(** The outcome of the built-in [chr]. *)
Inductive chr_result :=
| ChrOk (c : N)
| ChrValueError
| ChrOverflowError.

Definition INT_MIN : Z := (-2147483648)%Z.
Definition INT_MAX : Z := 2147483647%Z.

(** [chr(val)]: the argument is converted to a C [int] first, which
    raises [OverflowError] beyond it; inside it, an argument outside
    [range(0x110000)] raises [ValueError]. *)
Definition chr (val : Z) : chr_result :=
  if ((val <? INT_MIN) || (INT_MAX <? val))%Z then ChrOverflowError
  else if ((0 <=? val) && (val <=? 1114111))%Z then ChrOk (Z.to_N val)
  else ChrValueError.

(** The code points that UTF-8 does not encode: the surrogates. *)
Definition is_surrogate (c : N) : bool := ((55296 <=? c) && (c <=? 57343))%N.

(** The [try] block of the print command with its handler: the character
    written, or the exception that leaves the block. [except ValueError]
    catches the [ValueError] of [chr] and the [UnicodeEncodeError] (a
    [ValueError]) of writing a surrogate, and writes a question mark;
    it does not catch the [OverflowError] of [chr]. *)
Definition print_chr (val : Z) : exn + N :=
  match chr val with
  | ChrOverflowError => inl OverflowError
  | ChrValueError => inr QUESTION_MARK
  | ChrOk c => if is_surrogate c then inr QUESTION_MARK else inr c
  end.

(** The [for s in subjects] loop of the print command. *)
Fixpoint print_loop (subjects : list str) (m : machine) : result :=
  match subjects with
  | [] => Next m
  | s :: rest =>
    match get_val (variables m) s with
    | inl e => Raise e m
    | inr val =>
      match print_chr val with
      | inl e => Raise e m
      | inr c =>
        print_loop rest (Machine (variables m) (pc m) (output m ++ [c]))
      end
    end
  end.

Definition with_variables (m : machine) (vars : gmap str Z) : machine :=
  Machine vars (pc m) (output m).

Definition with_pc (m : machine) (target : Z) : machine :=
  Machine (variables m) target (output m).

(** The three arithmetic commands share their shape: mutability check
    of the first subject, then the unit rule on the store entry for one
    subject, or the fold over all resolved subjects for more. *)
Definition arith (unit_rule : Z → Z) (fold : list Z → Z)
           (subjects : list str) (m : machine) : result :=
  match subjects with
  | [] => Next m
  | target :: others =>
    match check_mutable target with
    | Some e => Raise e m
    | None =>
      match others with
      | [] =>
        let '(v, vars) := defaultdict_get (variables m) target in
        Next (with_variables m (<[target := unit_rule v]> vars))
      | _ :: _ =>
        match get_vals (variables m) subjects with
        | inl e => Raise e m
        | inr values =>
          Next (with_variables m (<[target := fold values]> (variables m)))
        end
      end
    end
  end.

(** [first - others] of the subtract command. *)
Definition first_minus_rest (values : list Z) : Z :=
  match values with
  | [] => 0%Z
  | first :: others => (first - sum others)%Z
  end.

(** [cmd]: the prefix keyword when it is the first token, else the last
    token; [None] is the [IndexError] of [tokens[0]] on an empty list. *)
Definition command (tokens : list str) : option str :=
  match tokens with
  | [] => None
  | first :: _ =>
    if bool_decide (first = PREFIX_KEYWORD) then Some PREFIX_KEYWORD
    else last tokens
  end.

(** The value of [condition_met] when the jump test is reached: an
    exception of a read, or the truth of the condition. *)
Definition jump_condition (tokens : list str) (vars : gmap str Z)
  : exn + bool :=
  match index tokens (-2) with
  | Some cond_op =>
    if contains KW_EQ cond_op || contains KW_GT cond_op then
      let subjects := parse_subjects (join SPACE (drop_last 2 tokens)) in
      match get_vals vars subjects with
      | inl e => inl e
      | inr values => inr (condition_met cond_op values)
      end
    else inr true
  | None => inr true
  end.

(** The operand list of a non-jump command. *)
Definition operands (cmd : str) (tokens : list str) : list str :=
  if bool_decide (cmd = PREFIX_KEYWORD)
  then parse_subjects (join SPACE (drop 1 tokens))
  else parse_subjects (join SPACE (drop_last 1 tokens)).

(** [self.pc += 1] at the end of an iteration that raised nothing. *)
Definition advance (r : result) : result :=
  match r with
  | Next m' => Next (with_pc m' (pc m' + 1))
  | Raise e m' => Raise e m'
  end.

(** One iteration of the [while] loop of [run] on the fetched
    instruction, up to and including the update of [self.pc]. *)
Definition exec (labels : gmap str Z) (inst : instruction) (m : machine)
  : result :=
  match command (tokens inst) with
  | None => Raise IndexError m
  | Some cmd =>
    if contains KW_JUMP cmd then
      let target_dots := remove_all KW_JUMP cmd in
      match jump_condition (tokens inst) (variables m) with
      | inl e => Raise e m
      | inr true =>
        match labels !! target_dots with
        | None => Raise (CKRRuntimeError (MissingLabel target_dots)) m
        | Some target => Next (with_pc m target)
        end
      | inr false => Next (with_pc m (pc m + 1))
      end
    else
      let subjects := operands cmd (tokens inst) in
      let r :=
        if bool_decide (cmd = PREFIX_KEYWORD) then declare_loop subjects m
        else if bool_decide (cmd = KW_ADD) then
          arith (λ v, v + 1)%Z sum subjects m
        else if bool_decide (cmd = KW_SUB) then
          arith (λ v, v - 1)%Z first_minus_rest subjects m
        else if bool_decide (cmd = KW_MUL) then
          arith (λ v, v * 2)%Z product subjects m
        else if bool_decide (cmd = KW_NEG) then negate_loop subjects m
        else if bool_decide (cmd = KW_PRINT) then print_loop subjects m
        else Raise (CKRRuntimeError (UnknownCommand cmd)) m in
      advance r
  end.

(** The [while] loop of [run]: [None] when the loop condition
    [self.pc < len(instructions)] is false. *)
Definition step (instructions : list instruction) (labels : gmap str Z)
           (m : machine) : option result :=
  if bool_decide (pc m < Z.of_nat (length instructions))%Z then
    match index instructions (pc m) with
    | None => Some (Raise IndexError m)
    | Some inst => Some (exec labels inst m)
    end
  else None.

(** At most [fuel] iterations of the loop; the outer [option] is [None]
    when the fuel runs out before the loop ends. *)
Fixpoint run_loop (fuel : nat) (instructions : list instruction)
         (labels : gmap str Z) (m : machine) : option result :=
  match step instructions labels m with
  | None => Some (Next m)
  | Some (Raise e m') => Some (Raise e m')
  | Some (Next m') =>
    match fuel with
    | O => None
    | S fuel' => run_loop fuel' instructions labels m'
    end
  end.

(** [run]: the program counter is reset, the store is kept. *)
Definition run (fuel : nat) (instructions : list instruction)
           (labels : gmap str Z) (m : machine) : option result :=
  run_loop fuel instructions labels (with_pc m 0).

(** A freshly constructed evaluator. *)
Definition initial : machine := Machine ∅ 0 [].

End CKREvaluator.

(** ** Vocabulary of the statements *)

(** [needle] occurs in [hay] at index [i]. *)
Definition occurs_at (needle hay : str) (i : nat) : Prop :=
  ∃ pre post, hay = pre ++ needle ++ post ∧ length pre = i.

Definition absent (needle hay : str) : Prop :=
  ∀ i, ¬ occurs_at needle hay i.

(** [i] is the index of the first occurrence of [needle] in [hay]. *)
Definition first_index (needle hay : str) (i : nat) : Prop :=
  occurs_at needle hay i ∧ ∀ k, occurs_at needle hay k → (i ≤ k)%nat.


(** A name that is neither a constant nor in the store. *)
Definition undefined (vars : gmap str Z) (name : str) : Prop :=
  CONSTANTS !! name = None ∧ vars !! name = None.

(** The value the [defaultdict] store gives for a name. *)
Definition stored (vars : gmap str Z) (name : str) : Z :=
  default 0%Z (vars !! name).

Definition total (values : list Z) : Z := foldr Z.add 0%Z values.
Definition times (values : list Z) : Z := foldr Z.mul 1%Z values.

(** The unit rule of the one-subject arithmetic commands in the words of
    the specification: +1, -1, x2. *)
Definition unit_rule (cmd : str) (v : Z) : Z :=
  if bool_decide (cmd = CKRLexer.KW_ADD) then (v + 1)%Z
  else if bool_decide (cmd = CKRLexer.KW_SUB) then (v - 1)%Z
  else (v * 2)%Z.

(** The fold of the arithmetic commands with two or more subjects in the
    words of the specification: the sum of all values, the first minus the
    sum of the rest, the product of all values. *)
Definition fold_rule (cmd : str) (first : Z) (rest : list Z) : Z :=
  if bool_decide (cmd = CKRLexer.KW_ADD) then total (first :: rest)
  else if bool_decide (cmd = CKRLexer.KW_SUB) then (first - total rest)%Z
  else times (first :: rest).

(** The equality-style condition in the words of the specification. *)
Definition equality_holds (values : list Z) : Prop :=
  match values with
  | [] => False
  | v0 :: _ =>
    (length values = 1%nat ∧ v0 = 0%Z)
    ∨ ((length values > 1)%nat ∧ ∀ v, v ∈ values → v = v0)
  end.

(** The greater-than-style condition in the words of the specification. *)
Definition greater_holds (values : list Z) : Prop :=
  match values with
  | [] => False
  | v0 :: others =>
    (length values = 1%nat ∧ (v0 > 0)%Z)
    ∨ ((length values > 1)%nat ∧ ∀ v, v ∈ others → (v0 > v)%Z)
  end.

(** One step of a run that does not raise. *)
Definition steps_to (instructions : list CKRParser.instruction)
           (labels : gmap str Z) (m m' : CKREvaluator.machine) : Prop :=
  CKREvaluator.step instructions labels m = Some (CKREvaluator.Next m').

(** Every label points into the instruction list or just behind it. *)
Definition labels_in_range
           (acc : list CKRParser.instruction * gmap str Z) : Prop :=
  ∀ name k, acc.2 !! name = Some k → (0 ≤ k ≤ Z.of_nat (length acc.1))%Z.

(** A value that fits the C [int] to which [chr] converts its argument. *)
Definition in_c_int (v : Z) : Prop :=
  (CKREvaluator.INT_MIN ≤ v ≤ CKREvaluator.INT_MAX)%Z.

(** What the print command writes for a value: the character of that
    code point, or a question mark when the value is no code point
    (outside 0..0x10FFFF) or a surrogate code point. *)
Definition printed (v : Z) : N :=
  if decide ((0 ≤ v ≤ 1114111)%Z ∧ ¬ (55296 ≤ v ≤ 57343)%Z)
  then Z.to_N v
  else 63%N.

(** ** Concrete inputs of the examples *)
Module Examples.

Import CKRLexer CKRParser CKREvaluator.

Definition a : str := Eval vm_compute in u "a".
Definition b : str := Eval vm_compute in u "b".
Definition x : str := Eval vm_compute in u "x".
Definition a_comma : str := Eval vm_compute in u "a,".

(** An instruction as the parser builds it from a token group. *)
Definition inst_of (tokens : list str) : instruction :=
  Instruction (join SPACE tokens) tokens.

Definition reversed_markers : str :=
  Eval vm_compute in u "백수저 최강록 우승 흑백요리사2 히든백수저 최강록".



(** A program that squares 2 five times and prints the result. *)
Definition overflow_program : str :=
  Eval vm_compute in START_MARKER ++ u "
나야 a
a 조려
a 조리고
a, a 조리고
a, a 조리고
a, a 조리고
a, a 조리고
a, a 조리고
a 을
" ++ END_MARKER.
Definition overflow_groups : list (list str) :=
  Eval vm_compute in
    [[PREFIX_KEYWORD; a]; [a; KW_ADD]; [a; KW_MUL];
     [a_comma; a; KW_MUL]; [a_comma; a; KW_MUL]; [a_comma; a; KW_MUL];
     [a_comma; a; KW_MUL]; [a_comma; a; KW_MUL]; [a; KW_PRINT]].

Definition jump_to_dots : str := Eval vm_compute in u "..조림핑".
Definition dots : str := Eval vm_compute in u "..".

(** A loop that never ends, and a label behind the last instruction. *)
Definition dot : str := Eval vm_compute in u ".".
Definition loop_groups : list (list str) :=
  Eval vm_compute in
    [[u "연쇄조림마."]; [a; KW_ADD]; [u ".조림핑"]; [u "연쇄조림마.."]].
Definition loop_instructions : list instruction :=
  Eval vm_compute in [inst_of [a; KW_ADD]; inst_of [u ".조림핑"]].
Definition loop_labels : gmap str Z := <[ dots := 2%Z ]> {[ dot := 0%Z ]}.

Definition store_a (v : Z) : gmap str Z := {[ a := v ]}.
Definition store_ab (v w : Z) : gmap str Z := <[ b := w ]> {[ a := v ]}.

End Examples.

(** ** Vocabulary of the further properties *)

(** A token as [str.split] yields it: not empty, no white space. *)
Definition clean_token (t : str) : Prop :=
  t ≠ [] ∧ ∀ c, c ∈ t → isspace c = false.

(** A text whose first and last characters are not white space. *)
Definition trimmed (s : str) : Prop :=
  (∀ c, head s = Some c → isspace c = false)
  ∧ (∀ c, last s = Some c → isspace c = false).

(** The shape of an instruction group: not empty, a suffix keyword only as
    its last token, the prefix keyword only as its first. *)
Definition group_shape (g : list str) : Prop :=
  g ≠ []
  ∧ ∀ i t, g !! i = Some t →
           (t ∈ CKRLexer.SUFFIX_KEYWORDS → S i = length g)
           ∧ (t = CKRLexer.PREFIX_KEYWORD → i = 0%nat).

(** The shape of the buffer while a line is scanned: no suffix keyword,
    the prefix keyword only in front. *)
Definition buffer_shape (b : list str) : Prop :=
  ∀ i t, b !! i = Some t →
         (t ∉ CKRLexer.SUFFIX_KEYWORDS)
         ∧ (t = CKRLexer.PREFIX_KEYWORD → i = 0%nat).

(** The label a token group defines, if it is a label definition. *)
Definition label_of (group : list str) : option str :=
  match group with
  | [] => None
  | first :: _ =>
    if startswith CKRParser.LABEL_KEYWORD first
    then Some (strip (remove_all CKRParser.LABEL_KEYWORD first))
    else None
  end.

(** The token groups that become instructions. *)
Definition emits (group : list str) : bool :=
  match group with
  | [] => false
  | first :: _ => negb (startswith CKRParser.LABEL_KEYWORD first)
  end.

(** The machine a result carries. *)
Definition machine_of (r : CKREvaluator.result) : CKREvaluator.machine :=
  match r with
  | CKREvaluator.Next m => m
  | CKREvaluator.Raise _ m => m
  end.

(** A program without jump instructions. *)
Definition jump_free (instructions : list CKRParser.instruction) : Prop :=
  ∀ inst cmd,
    inst ∈ instructions →
    CKREvaluator.command (CKRParser.tokens inst) = Some cmd →
    contains CKRLexer.KW_JUMP cmd = false.

(** ** Concrete inputs of the further examples *)
Module MoreExamples.

Import CKRLexer CKRParser CKREvaluator.

(** A declaration, and a line with two commands. *)
Definition program : str :=
  Eval vm_compute in START_MARKER ++ u "
나야 a, b
a 조려 b 을
" ++ END_MARKER.

Definition program_groups : list (list str) :=
  Eval vm_compute in
    [[PREFIX_KEYWORD; u "a,"; u "b"]; [u "a"; KW_ADD]; [u "b"; KW_PRINT]].

Definition label_dot : list str := Eval vm_compute in [u "연쇄조림마."].

(** A token that holds the equality comparator without being it. *)
Definition eq_bang : str := Eval vm_compute in u "조림인간!".

End MoreExamples.

(** * Facts about the string primitives *)
Section StringFacts.

Lemma startswith_app needle post : startswith needle (needle ++ post) = true.
Proof.
  induction needle as [|a needle IH]; simpl; [done|].
  by rewrite N.eqb_refl, IH.
Qed.

Lemma startswith_inv needle hay :
  startswith needle hay = true → ∃ post, hay = needle ++ post.
Proof.
  revert hay. induction needle as [|a needle IH]; intros hay H.
  - by exists hay.
  - destruct hay as [|b hay]; simpl in H; [done|].
    apply andb_prop in H as [Hab H%IH]. apply N.eqb_eq in Hab as ->.
    destruct H as [post ->]. by exists post.
Qed.

Lemma find_Some_occurs needle hay i :
  find needle hay = Some i → occurs_at needle hay i.
Proof.
  revert i. induction hay as [|c hay IH]; intros i H.
  - destruct needle; simpl in H; [|done].
    injection H as <-. by exists [], [].
  - unfold find in H; fold find in H.
    destruct (startswith needle (c :: hay)) eqn:Hs.
    + injection H as <-. apply startswith_inv in Hs as [post ->].
      by exists [], post.
    + destruct (find needle hay) as [k|] eqn:Hk; simpl in H; [|done].
      injection H as <-. destruct (IH k eq_refl) as (pre & post & -> & Hlen).
      exists (c :: pre), post. simpl. by rewrite Hlen.
Qed.

Lemma find_None_absent needle hay :
  find needle hay = None → absent needle hay.
Proof.
  induction hay as [|c hay IH]; intros H i (pre & post & Heq & Hlen).
  - destruct needle; simpl in H; [done|].
    by destruct pre.
  - unfold find in H; fold find in H.
    destruct (startswith needle (c :: hay)) eqn:Hs; [done|].
    destruct (find needle hay) eqn:Hk; simpl in H; [done|].
    destruct pre as [|p pre]; simpl in Heq.
    + rewrite Heq, startswith_app in Hs. done.
    + injection Heq as -> ->. eapply (IH eq_refl); by eexists _, _.
Qed.

Lemma find_Some_least needle hay i k :
  find needle hay = Some i → occurs_at needle hay k → (i ≤ k)%nat.
Proof.
  revert i k. induction hay as [|c hay IH]; intros i k H (pre & post & Heq & Hlen).
  - destruct needle; simpl in H; [|done]. injection H as <-. lia.
  - unfold find in H; fold find in H.
    destruct (startswith needle (c :: hay)) eqn:Hs.
    + injection H as <-. lia.
    + destruct (find needle hay) as [j|] eqn:Hk; simpl in H; [|done].
      injection H as <-.
      destruct pre as [|p pre]; simpl in Heq.
      * rewrite Heq, startswith_app in Hs. done.
      * injection Heq as -> ->. subst k. simpl.
        apply le_n_S, (IH j (length pre) eq_refl). by eexists _, _.
Qed.

(** [find] computes the first index, as [str.index] does. *)
Lemma find_first_index needle hay i :
  find needle hay = Some i ↔ first_index needle hay i.
Proof.
  split.
  - intros H. split; [by apply find_Some_occurs|].
    intros k. by apply find_Some_least.
  - intros [Hocc Hleast]. destruct (find needle hay) as [j|] eqn:Hj.
    + f_equal. apply Nat.le_antisymm.
      * by eapply find_Some_least.
      * by apply Hleast, find_Some_occurs.
    + by apply find_None_absent in Hocc.
Qed.

Lemma find_absent needle hay :
  find needle hay = None ↔ absent needle hay.
Proof.
  split; [apply find_None_absent|].
  intros H. destruct (find needle hay) as [j|] eqn:Hj; [|done].
  by apply find_Some_occurs, H in Hj.
Qed.

End StringFacts.

(** * The lexer *)
Section Lexer.

Import CKRLexer.

(** ** Cleaning *)

Lemma occurs_elem_of c s : occurs c s = true ↔ c ∈ s.
Proof.
  unfold occurs. rewrite existsb_exists. setoid_rewrite <- list_elem_of_In.
  split.
  - by intros (x & Hx & ->%N.eqb_eq).
  - intros H. exists c. by rewrite N.eqb_refl.
Qed.

Lemma occurs_false_not_elem c s : occurs c s = false ↔ c ∉ s.
Proof. rewrite <- occurs_elem_of. by destruct (occurs c s). Qed.




Lemma remove_quoted_go_subseq c inside s :
  c ∈ remove_quoted_go inside s → c ∈ s.
Proof.
  revert inside. induction s as [|d s IH]; intros inside; simpl; [done|].
  destruct inside as [q|].
  - destruct (d =? q)%N; intros H%IH; by right.
  - destruct (is_quote d && occurs d s); [intros H%IH; by right|].
    intros [->|H%IH]%elem_of_cons; [left|by right].
Qed.

(** A quote that survives cleaning has no partner after it. *)
Lemma remove_quoted_go_lonely inside s before q after :
  is_quote q = true →
  remove_quoted_go inside s = before ++ q :: after → q ∉ after.
Proof.
  intros Hquote. revert inside before.
  induction s as [|d s IH]; intros inside before; simpl.
  - by destruct before.
  - destruct inside as [q'|].
    + destruct (d =? q')%N; apply IH.
    + destruct (is_quote d && occurs d s) eqn:Hd; [apply IH|].
      destruct before as [|b before]; simpl; [|intros [= -> H]; by eapply IH].
      intros [= -> <-]. rewrite Hquote in Hd. simpl in Hd.
      apply occurs_false_not_elem in Hd.
      intros H%remove_quoted_go_subseq. done.
Qed.




(** ** Grouping *)

(** The groups already closed are not touched again. *)
Lemma group_tokens_grouped grouped buffer tokens :
  group_tokens grouped buffer tokens
  = (grouped ++ (group_tokens [] buffer tokens).1,
     (group_tokens [] buffer tokens).2).
Proof.
  revert grouped buffer.
  induction tokens as [|token rest IH]; intros grouped buffer.
  - simpl. by rewrite app_nil_r.
  - cbn [group_tokens].
    destruct (is_suffix token).
    { rewrite (IH (grouped ++ _)), (IH ([] ++ _)). simpl.
      by rewrite <- app_assoc. }
    destruct (bool_decide (token = PREFIX_KEYWORD)).
    { rewrite (IH (flush grouped buffer)), (IH (flush [] buffer)).
      destruct buffer; simpl; [done|]. by rewrite <- app_assoc. }
    destruct (next_is_suffix (head rest)); [|apply IH].
    destruct (prefix_started buffer); [|apply IH].
    rewrite (IH (grouped ++ _)), (IH ([] ++ _)). simpl.
    by rewrite <- app_assoc.
Qed.

End Lexer.

(** * The claims about the lexer *)
Section LexerClaims.

Import CKRLexer.

(** C7. When, after the removal of the quoted spans, the start marker or
    the end marker is absent, or the first start marker is at or after the
    first end marker, [clean_code] raises [CKRSyntaxError], and so does
    [tokenize]: no instruction group is produced. *)
Theorem clean_code_syntax_error (raw : str) :
  absent START_MARKER (remove_quoted raw)
  ∨ absent END_MARKER (remove_quoted raw)
  ∨ (∃ i j, first_index START_MARKER (remove_quoted raw) i
            ∧ first_index END_MARKER (remove_quoted raw) j
            ∧ (j ≤ i)%nat) →
  clean_code raw = inl CKRSyntaxError ∧ tokenize raw = inl CKRSyntaxError.
Proof.
  intros H.
  assert (clean_code raw = inl CKRSyntaxError) as Hclean.
  { unfold clean_code, extract_core.
    destruct H as [H|[H|(i & j & Hi & Hj & Hle)]].
    - apply find_absent in H. by rewrite H.
    - apply find_absent in H. rewrite H.
      by destruct (find START_MARKER (remove_quoted raw)).
    - apply find_first_index in Hi, Hj. rewrite Hi, Hj.
      rewrite bool_decide_eq_true_2; [done|lia]. }
  split; [done|]. unfold tokenize. by rewrite Hclean.
Qed.

Lemma clean_code_syntax_error_witness :
  (∃ i j, first_index START_MARKER (remove_quoted Examples.reversed_markers) i
          ∧ first_index END_MARKER (remove_quoted Examples.reversed_markers) j
          ∧ (j ≤ i)%nat)
  ∧ clean_code Examples.reversed_markers = inl CKRSyntaxError
  ∧ tokenize Examples.reversed_markers = inl CKRSyntaxError.
Proof.
  assert (∃ i j,
             first_index START_MARKER
               (remove_quoted Examples.reversed_markers) i
             ∧ first_index END_MARKER
                 (remove_quoted Examples.reversed_markers) j
             ∧ (j ≤ i)%nat) as H.
  { exists 11%nat, 0%nat. split; [|split; [|lia]].
    - apply find_first_index. vm_compute. reflexivity.
    - apply find_first_index. vm_compute. reflexivity. }
  split; [exact H|].
  apply (clean_code_syntax_error Examples.reversed_markers).
  right. right. exact H.
Defined.




(** C9. An ordinary token [t] (neither a suffix keyword nor the prefix
    keyword) whose lookahead is a suffix keyword: when the buffer begins
    with the prefix keyword, the buffer is closed as a group and a fresh
    buffer holding just [t] is started, which the suffix keyword then
    closes as the group [t next]; otherwise [t] is appended to the buffer,
    which the suffix keyword then closes as one group. The tokens behind
    the suffix keyword are grouped from an empty buffer. *)
Theorem ordinary_token_before_suffix
        (grouped : list (list str)) (buffer : list str)
        (t next : str) (rest : list str) :
  t ∉ SUFFIX_KEYWORDS →
  t ≠ PREFIX_KEYWORD →
  next ∈ SUFFIX_KEYWORDS →
  ((∃ tl, buffer = PREFIX_KEYWORD :: tl) →
     group_tokens grouped buffer (t :: next :: rest)
     = (grouped ++ buffer :: [t; next] :: (group_tokens [] [] rest).1,
        (group_tokens [] [] rest).2))
  ∧ ((∀ tl, buffer ≠ PREFIX_KEYWORD :: tl) →
     group_tokens grouped buffer (t :: next :: rest)
     = (grouped ++ (buffer ++ [t; next]) :: (group_tokens [] [] rest).1,
        (group_tokens [] [] rest).2)).
Proof.
  intros Ht Hp Hn.
  assert (group_tokens grouped buffer (t :: next :: rest)
          = if prefix_started buffer
            then group_tokens (grouped ++ [buffer]) [t] (next :: rest)
            else group_tokens grouped (buffer ++ [t]) (next :: rest)) as ->.
  { cbn [group_tokens]. unfold is_suffix at 1.
    rewrite (bool_decide_eq_false_2 _ Ht), (bool_decide_eq_false_2 _ Hp).
    cbn [head next_is_suffix]. unfold is_suffix at 1.
    by rewrite (bool_decide_eq_true_2 _ Hn). }
  assert (∀ g b, group_tokens g b (next :: rest)
                 = (g ++ (b ++ [next]) :: (group_tokens [] [] rest).1,
                    (group_tokens [] [] rest).2)) as Hclose.
  { intros g b. cbn [group_tokens]. unfold is_suffix at 1.
    rewrite (bool_decide_eq_true_2 _ Hn), group_tokens_grouped.
    by rewrite <- app_assoc. }
  split.
  - intros [tl ->]. unfold prefix_started.
    rewrite bool_decide_eq_true_2 by done.
    rewrite Hclose. by rewrite <- app_assoc.
  - intros Hno.
    assert (prefix_started buffer = false) as ->.
    { destruct buffer as [|b tl]; unfold prefix_started; [done|].
      rewrite bool_decide_eq_false_2; [done|]. intros ->. by eapply Hno. }
    rewrite Hclose. by rewrite <- app_assoc.
Qed.

Lemma ordinary_token_before_suffix_witness :
  ((Examples.b ∉ SUFFIX_KEYWORDS) ∧ Examples.b ≠ PREFIX_KEYWORD
   ∧ KW_ADD ∈ SUFFIX_KEYWORDS)
  ∧ group_tokens [] [PREFIX_KEYWORD; Examples.a]
                 [Examples.b; KW_ADD; Examples.x; KW_PRINT]
    = ([[PREFIX_KEYWORD; Examples.a]; [Examples.b; KW_ADD];
        [Examples.x; KW_PRINT]], [])
  ∧ group_tokens [] [Examples.a] [Examples.b; KW_ADD; Examples.x; KW_PRINT]
    = ([[Examples.a; Examples.b; KW_ADD]; [Examples.x; KW_PRINT]], []).
Proof.
  assert (Examples.b ∉ SUFFIX_KEYWORDS) as H1 by compute_done.
  assert (Examples.b ≠ PREFIX_KEYWORD) as H2 by compute_done.
  assert (KW_ADD ∈ SUFFIX_KEYWORDS) as H3 by compute_done.
  split; [done|].
  destruct (ordinary_token_before_suffix [] [PREFIX_KEYWORD; Examples.a]
              (Examples.b) KW_ADD [Examples.x; KW_PRINT] H1 H2 H3)
    as [Hclose _].
  destruct (ordinary_token_before_suffix [] [Examples.a]
              (Examples.b) KW_ADD [Examples.x; KW_PRINT] H1 H2 H3)
    as [_ Happend].
  split.
  - rewrite Hclose; [|by eexists]. vm_compute. reflexivity.
  - rewrite Happend; [|intros tl; compute_done]. vm_compute. reflexivity.
Defined.

End LexerClaims.

(** * Reads and dispatch *)
Section Evaluator.

Import CKRLexer CKRParser CKREvaluator.

Implicit Types (m : machine) (vars labels : gmap str Z) (name cmd : str).

(** ** Constants and reads *)

Lemma is_constant_false name :
  is_constant name = false ↔ CONSTANTS !! name = None.
Proof.
  unfold is_constant. rewrite bool_decide_eq_false, <- eq_None_not_Some.
  done.
Qed.

Lemma check_mutable_None name :
  check_mutable name = None ↔ CONSTANTS !! name = None.
Proof.
  unfold check_mutable. rewrite <- is_constant_false.
  by destruct (is_constant name).
Qed.

Lemma get_val_undefined vars name :
  undefined vars name →
  get_val vars name = inl (CKRRuntimeError (UndefinedVariable name)).
Proof. intros [Hc Hv]. unfold get_val. by rewrite Hc, Hv. Qed.

(** [get_val] raises nothing but the undefined-variable error, and only
    on an undefined name. *)
Lemma get_val_error vars name e :
  get_val vars name = inl e →
  e = CKRRuntimeError (UndefinedVariable name) ∧ undefined vars name.
Proof.
  unfold get_val, undefined.
  destruct (CONSTANTS !! name); [done|].
  destruct (vars !! name); [done|]. by intros [= <-].
Qed.

Lemma get_vals_error vars subjects e :
  get_vals vars subjects = inl e →
  ∃ s, s ∈ subjects ∧ undefined vars s
       ∧ e = CKRRuntimeError (UndefinedVariable s).
Proof.
  induction subjects as [|s subjects IH]; simpl; [done|].
  destruct (get_val vars s) as [e'|v] eqn:Hs.
  - intros [= <-]. apply get_val_error in Hs as [-> Hu].
    exists s. split; [left|done].
  - destruct (get_vals vars subjects) as [e'|vs]; [|done].
    intros [= <-]. destruct (IH eq_refl) as (s' & Hin & Hu & ->).
    exists s'. split; [by right|done].
Qed.

Lemma get_vals_undefined vars subjects name :
  name ∈ subjects → undefined vars name →
  ∃ s, undefined vars s
       ∧ get_vals vars subjects = inl (CKRRuntimeError (UndefinedVariable s)).
Proof.
  intros Hin Hu.
  destruct (get_vals vars subjects) as [e|vs] eqn:Hvals.
  - apply get_vals_error in Hvals as (s & _ & Hs & ->). by exists s.
  - exfalso. revert vs Hvals.
    induction Hin as [name subjects|name s subjects Hin IH];
      intros vs; simpl.
    + by rewrite (get_val_undefined _ _ Hu).
    + destruct (get_val vars s); [done|].
      destruct (get_vals vars subjects) as [|vs']; [done|].
      intros _. by eapply IH.
Qed.

(** ** Dispatch *)

Lemma exec_declare labels inst m :
  command (tokens inst) = Some PREFIX_KEYWORD →
  exec labels inst m
  = advance (declare_loop (operands PREFIX_KEYWORD (tokens inst)) m).
Proof. intros H. unfold exec. rewrite H. reflexivity. Qed.

Lemma exec_add labels inst m :
  command (tokens inst) = Some KW_ADD →
  exec labels inst m
  = advance (arith (λ v, v + 1)%Z sum (operands KW_ADD (tokens inst)) m).
Proof. intros H. unfold exec. rewrite H. reflexivity. Qed.

Lemma exec_sub labels inst m :
  command (tokens inst) = Some KW_SUB →
  exec labels inst m
  = advance (arith (λ v, v - 1)%Z first_minus_rest
                   (operands KW_SUB (tokens inst)) m).
Proof. intros H. unfold exec. rewrite H. reflexivity. Qed.

Lemma exec_mul labels inst m :
  command (tokens inst) = Some KW_MUL →
  exec labels inst m
  = advance (arith (λ v, v * 2)%Z product (operands KW_MUL (tokens inst)) m).
Proof. intros H. unfold exec. rewrite H. reflexivity. Qed.

Lemma exec_negate labels inst m :
  command (tokens inst) = Some KW_NEG →
  exec labels inst m
  = advance (negate_loop (operands KW_NEG (tokens inst)) m).
Proof. intros H. unfold exec. rewrite H. reflexivity. Qed.

Lemma exec_print labels inst m :
  command (tokens inst) = Some KW_PRINT →
  exec labels inst m
  = advance (print_loop (operands KW_PRINT (tokens inst)) m).
Proof. intros H. unfold exec. rewrite H. reflexivity. Qed.

Lemma exec_jump labels inst m cmd :
  command (tokens inst) = Some cmd →
  contains KW_JUMP cmd = true →
  exec labels inst m
  = match jump_condition (tokens inst) (variables m) with
    | inl e => Raise e m
    | inr true =>
      match labels !! remove_all KW_JUMP cmd with
      | None => Raise (CKRRuntimeError (MissingLabel (remove_all KW_JUMP cmd))) m
      | Some target => Next (with_pc m target)
      end
    | inr false => Next (with_pc m (pc m + 1))
    end.
Proof. intros H Hj. unfold exec. by rewrite H, Hj. Qed.

Lemma exec_unknown labels inst m cmd :
  command (tokens inst) = Some cmd →
  contains KW_JUMP cmd = false →
  cmd ∉ [PREFIX_KEYWORD; KW_ADD; KW_SUB; KW_MUL; KW_NEG; KW_PRINT] →
  exec labels inst m = Raise (CKRRuntimeError (UnknownCommand cmd)) m.
Proof.
  intros H Hj Hcmd. unfold exec. rewrite H, Hj.
  repeat (rewrite bool_decide_eq_false_2;
          [|intros ->; apply Hcmd; compute_done]).
  done.
Qed.

(** The non-jump commands are the six keywords or unknown. *)
Lemma command_cases cmd :
  cmd ∈ [PREFIX_KEYWORD; KW_ADD; KW_SUB; KW_MUL; KW_NEG; KW_PRINT]
  ∨ cmd ∉ [PREFIX_KEYWORD; KW_ADD; KW_SUB; KW_MUL; KW_NEG; KW_PRINT].
Proof.
  destruct (decide
    (cmd ∈ [PREFIX_KEYWORD; KW_ADD; KW_SUB; KW_MUL; KW_NEG; KW_PRINT]));
    [by left|by right].
Qed.

Lemma jump_condition_resolved tokens vars cond_op values :
  index tokens (-2) = Some cond_op →
  contains KW_EQ cond_op || contains KW_GT cond_op = true →
  get_vals vars (parse_subjects (join SPACE (drop_last 2 tokens)))
  = inr values →
  jump_condition tokens vars = inr (condition_met cond_op values).
Proof.
  intros Hop Hc Hvals. unfold jump_condition. by rewrite Hop, Hc, Hvals.
Qed.

End Evaluator.

(** The three arithmetic commands, one goal each, with [exec] rewritten
    to the body of the command. *)
Ltac arith_cases Hkind Hcmd :=
  destruct Hkind as [-> | [-> | ->]];
  [ rewrite (exec_add _ _ _ Hcmd)
  | rewrite (exec_sub _ _ _ Hcmd)
  | rewrite (exec_mul _ _ _ Hcmd) ].

(** The loops stop at the first failing subject. *)
Ltac first_failure H :=
  let done_ := fresh "done_" in
  let failing := fresh "failing" in
  let rest := fresh "rest" in
  let Hops := fresh "Hops" in
  let Hdone := fresh "Hdone" in
  let Hfail := fresh "Hfail" in
  destruct H as (done_ & failing & rest & Hops & Hdone & Hfail);
  exists done_, failing, rest; repeat split; try done;
  intros ->; by injection Hdone.

(** * The commands *)
Section Commands.

Import CKRLexer CKRParser CKREvaluator.

Implicit Types (m : machine) (vars labels : gmap str Z) (name cmd : str).

(** ** The subject loops *)

(** A loop that raises has run to completion on the subjects before the
    failing one, and raises on that one without a further effect. *)
Lemma declare_loop_raise subjects m e m' :
  declare_loop subjects m = Raise e m' →
  ∃ done_ failing rest,
    subjects = done_ ++ failing :: rest
    ∧ declare_loop done_ m = Next m'
    ∧ declare_loop [failing] m' = Raise e m'.
Proof.
  revert m. induction subjects as [|s subjects IH]; intros m; simpl; [done|].
  destruct (check_mutable s) as [e'|] eqn:Hs.
  - intros [= <- <-]. exists [], s, subjects. simpl. by rewrite Hs.
  - intros (done_ & failing & rest & -> & Hdone & Hfail)%IH.
    exists (s :: done_), failing, rest. simpl. by rewrite Hs.
Qed.

Lemma negate_loop_raise subjects m e m' :
  negate_loop subjects m = Raise e m' →
  ∃ done_ failing rest,
    subjects = done_ ++ failing :: rest
    ∧ negate_loop done_ m = Next m'
    ∧ negate_loop [failing] m' = Raise e m'.
Proof.
  revert m. induction subjects as [|s subjects IH]; intros m; simpl; [done|].
  destruct (check_mutable s) as [e'|] eqn:Hs.
  - intros [= <- <-]. exists [], s, subjects. simpl. by rewrite Hs.
  - destruct (defaultdict_get (variables m) s) as [v vars] eqn:Hget.
    intros (done_ & failing & rest & -> & Hdone & Hfail)%IH.
    exists (s :: done_), failing, rest. simpl. by rewrite Hs, Hget.
Qed.

Lemma print_loop_raise subjects m e m' :
  print_loop subjects m = Raise e m' →
  ∃ done_ failing rest,
    subjects = done_ ++ failing :: rest
    ∧ print_loop done_ m = Next m'
    ∧ print_loop [failing] m' = Raise e m'.
Proof.
  revert m. induction subjects as [|s subjects IH]; intros m; simpl; [done|].
  destruct (get_val (variables m) s) as [e'|v] eqn:Hs.
  - intros [= <- <-]. exists [], s, subjects. simpl. by rewrite Hs.
  - destruct (print_chr v) as [e'|c] eqn:Hc.
    + intros [= <- <-]. exists [], s, subjects. simpl. by rewrite Hs, Hc.
    + intros (done_ & failing & rest & -> & Hdone & Hfail)%IH.
      exists (s :: done_), failing, rest. simpl. by rewrite Hs, Hc.
Qed.

(** The loops leave the program counter alone; declare and negate leave
    the output alone, print leaves the store alone. *)
Lemma declare_loop_frame subjects m m' :
  declare_loop subjects m = Next m' ∨ (∃ e, declare_loop subjects m = Raise e m') →
  pc m' = pc m ∧ output m' = output m.
Proof.
  revert m. induction subjects as [|s subjects IH]; intros m; simpl.
  - by intros [[= ->]|[e [=]]].
  - destruct (check_mutable s) as [e0|].
    + by intros [[=]|[e [= _ ->]]].
    + by intros H%IH.
Qed.

Lemma negate_loop_frame subjects m m' :
  negate_loop subjects m = Next m' ∨ (∃ e, negate_loop subjects m = Raise e m') →
  pc m' = pc m ∧ output m' = output m.
Proof.
  revert m. induction subjects as [|s subjects IH]; intros m; simpl.
  - by intros [[= ->]|[e [=]]].
  - destruct (check_mutable s) as [e0|].
    + by intros [[=]|[e [= _ ->]]].
    + destruct (defaultdict_get (variables m) s). by intros H%IH.
Qed.

Lemma print_loop_frame subjects m m' :
  print_loop subjects m = Next m' ∨ (∃ e, print_loop subjects m = Raise e m') →
  pc m' = pc m ∧ variables m' = variables m.
Proof.
  revert m. induction subjects as [|s subjects IH]; intros m; simpl.
  - by intros [[= ->]|[e [=]]].
  - destruct (get_val (variables m) s) as [e0|v].
    + by intros [[=]|[e' [= _ ->]]].
    + destruct (print_chr v) as [e0|c].
      * by intros [[=]|[e' [= _ ->]]].
      * by intros H%IH.
Qed.

(** Inside the C [int] the [try] block always writes one character. *)
Lemma print_chr_in_c_int v : in_c_int v → print_chr v = inr (printed v).
Proof.
  unfold in_c_int, print_chr, chr, printed, INT_MIN, INT_MAX. intros Hv.
  rewrite (proj2 (Z.ltb_ge _ _)), (proj2 (Z.ltb_ge _ _)) by lia. simpl.
  destruct (Z.leb_spec 0 v), (Z.leb_spec v 1114111); simpl;
    try (rewrite decide_False by lia; done).
  unfold is_surrogate.
  destruct (N.leb_spec 55296 (Z.to_N v)), (N.leb_spec (Z.to_N v) 57343);
    simpl; first [by rewrite decide_True by lia
                 |by rewrite decide_False by lia].
Qed.

(** Beyond the C [int] the [OverflowError] of [chr] leaves the block. *)
Lemma print_chr_overflow v : ¬ in_c_int v → print_chr v = inl OverflowError.
Proof.
  unfold in_c_int, print_chr, chr, INT_MIN, INT_MAX. intros Hv.
  destruct (Z.ltb_spec v (-2147483648)), (Z.ltb_spec 2147483647 v);
    simpl; try done.
  lia.
Qed.

Lemma print_loop_resolved subjects m values :
  get_vals (variables m) subjects = inr values →
  Forall in_c_int values →
  print_loop subjects m
  = Next (Machine (variables m) (pc m) (output m ++ (printed <$> values))).
Proof.
  revert m values.
  induction subjects as [|s subjects IH]; intros m values; simpl.
  - intros [= <-] _. simpl. rewrite app_nil_r. by destruct m.
  - destruct (get_val (variables m) s) as [|v]; [done|].
    destruct (get_vals (variables m) subjects) as [|vs] eqn:Hvs; [done|].
    intros [= <-] [Hv Hrest]%Forall_cons.
    rewrite (print_chr_in_c_int _ Hv), (IH _ vs); [|done..]. simpl.
    by rewrite <- app_assoc.
Qed.

(** The first value beyond the C [int] ends the loop with the
    [OverflowError], after the values before it have been written. *)
Lemma print_loop_overflow subjects m before v after :
  get_vals (variables m) subjects = inr (before ++ v :: after) →
  Forall in_c_int before → ¬ in_c_int v →
  print_loop subjects m
  = Raise OverflowError
          (Machine (variables m) (pc m) (output m ++ (printed <$> before))).
Proof.
  intros Hvals Hbefore Hv. revert subjects m Hvals.
  induction Hbefore as [|b before Hb _ IH]; intros subjects m.
  - destruct subjects as [|s subjects]; simpl; [done|].
    destruct (get_val (variables m) s) as [|v']; [done|].
    destruct (get_vals (variables m) subjects) as [|vs]; [done|].
    intros [= -> _]. rewrite (print_chr_overflow _ Hv), app_nil_r.
    by destruct m.
  - destruct subjects as [|s subjects]; simpl; [done|].
    destruct (get_val (variables m) s) as [|v']; [done|].
    destruct (get_vals (variables m) subjects) as [|vs] eqn:Hvs; [done|].
    intros [= -> ->]. rewrite (print_chr_in_c_int _ Hb).
    rewrite (IH subjects); [|done]. simpl. by rewrite <- app_assoc.
Qed.

Lemma print_loop_next_resolved subjects m m' :
  print_loop subjects m = Next m' →
  ∃ values, get_vals (variables m) subjects = inr values.
Proof.
  revert m. induction subjects as [|s subjects IH]; intros m; simpl.
  - intros _. by eexists.
  - destruct (get_val (variables m) s) as [e0|v]; [done|].
    destruct (print_chr v) as [e0|c]; [done|].
    intros [vs Hvs]%IH. simpl in Hvs. rewrite Hvs. by eexists.
Qed.

Lemma print_loop_app subjects rest m m' :
  print_loop subjects m = Next m' →
  print_loop (subjects ++ rest) m = print_loop rest m'.
Proof.
  revert m. induction subjects as [|s subjects IH]; intros m; simpl.
  - by intros [= ->].
  - destruct (get_val (variables m) s) as [e0|v]; [done|].
    destruct (print_chr v) as [e0|c]; [done|]. apply IH.
Qed.

Lemma arith_raise unit_rule fold subjects m e m' :
  arith unit_rule fold subjects m = Raise e m' → m' = m.
Proof.
  unfold arith. destruct subjects as [|target others]; [done|].
  destruct (check_mutable target); [by intros [= _ ->]|].
  destruct others as [|s others].
  - by destruct (defaultdict_get (variables m) target).
  - destruct (get_vals (variables m) (target :: s :: others)); [|done].
    by intros [= _ ->].
Qed.

Lemma arith_pc unit_rule fold subjects m m' :
  arith unit_rule fold subjects m = Next m' → pc m' = pc m.
Proof.
  unfold arith. destruct subjects as [|target others]; [by intros [= ->]|].
  destruct (check_mutable target); [done|].
  destruct others as [|s others].
  - destruct (defaultdict_get (variables m) target). by intros [= <-].
  - destruct (get_vals (variables m) (target :: s :: others)); [done|].
    by intros [= <-].
Qed.

Lemma defaultdict_get_insert vars name f :
  <[name := f (defaultdict_get vars name).1]> (defaultdict_get vars name).2
  = <[name := f (stored vars name)]> vars.
Proof.
  unfold defaultdict_get, stored. destruct (vars !! name); simpl; [done|].
  by rewrite insert_insert_eq.
Qed.

(** ** The folds *)

Lemma sum_total values : sum values = total values.
Proof.
  unfold sum, total.
  enough (∀ acc, foldl Z.add acc values = (acc + foldr Z.add 0 values)%Z)
    as -> by lia.
  induction values as [|v values IH]; intros acc; simpl; [lia|].
  rewrite IH. lia.
Qed.

Lemma product_times values : product values = times values.
Proof.
  unfold product, times.
  enough (∀ acc, foldl Z.mul acc values = (acc * foldr Z.mul 1 values)%Z)
    as -> by lia.
  induction values as [|v values IH]; intros acc; simpl; [lia|].
  rewrite IH. lia.
Qed.

(** ** The conditions *)

Lemma forallb_Forall_Z (p : Z → bool) values :
  forallb p values = true ↔ ∀ v, v ∈ values → p v = true.
Proof.
  rewrite forallb_forall. by setoid_rewrite list_elem_of_In.
Qed.

Lemma condition_met_eq values :
  condition_met KW_EQ values = true ↔ equality_holds values.
Proof.
  unfold condition_met, equality_holds.
  destruct values as [|v0 others]; [done|].
  rewrite bool_decide_eq_true_2 by done.
  destruct others as [|v1 others].
  - rewrite Z.eqb_eq. simpl. split; [by left|]. intros [[_ ?]|[? _]]; [done|lia].
  - rewrite forallb_Forall_Z. setoid_rewrite Z.eqb_eq. simpl. split.
    + intros H. right. split; [lia|done].
    + intros [[? _]|[_ H]]; [done|exact H].
Qed.

Lemma condition_met_gt values :
  condition_met KW_GT values = true ↔ greater_holds values.
Proof.
  unfold condition_met, greater_holds.
  destruct values as [|v0 others]; [done|].
  rewrite bool_decide_eq_false_2 by compute_done.
  rewrite bool_decide_eq_true_2 by done.
  destruct others as [|v1 others].
  - rewrite Z.gtb_gt. simpl. split; [by left|]. intros [[_ ?]|[? _]]; [done|lia].
  - rewrite forallb_Forall_Z. setoid_rewrite Z.gtb_gt. simpl. split.
    + intros H. right. split; [lia|done].
    + intros [[? _]|[_ H]]; [done|exact H].
Qed.

(** ** Whole instructions *)

(** The one-subject form of the arithmetic commands reads the store
    entry directly: a missing entry counts as 0. *)
Lemma exec_unit_rule labels inst m cmd target :
  command (tokens inst) = Some cmd →
  cmd = KW_ADD ∨ cmd = KW_SUB ∨ cmd = KW_MUL →
  operands cmd (tokens inst) = [target] →
  CONSTANTS !! target = None →
  exec labels inst m
  = Next (Machine
            (<[target := unit_rule cmd (stored (variables m) target)]>
               (variables m))
            (pc m + 1) (output m)).
Proof.
  intros Hcmd Hkind Hops Hmut. apply check_mutable_None in Hmut.
  arith_cases Hkind Hcmd;
    rewrite Hops; unfold arith; rewrite Hmut;
    destruct (defaultdict_get (variables m) target) as [v vars] eqn:Hget;
    pose proof (defaultdict_get_insert (variables m) target) as Hins;
    rewrite Hget in Hins; simpl in Hins; simpl; unfold with_variables;
    simpl.
  - by rewrite (Hins (λ v, v + 1)%Z).
  - by rewrite (Hins (λ v, v - 1)%Z).
  - by rewrite (Hins (λ v, v * 2)%Z).
Qed.

Lemma jump_not_loop cmd :
  contains KW_JUMP cmd = true →
  cmd ∉ [PREFIX_KEYWORD; KW_ADD; KW_SUB; KW_MUL; KW_NEG; KW_PRINT].
Proof.
  intros Hjump Hin. repeat (apply elem_of_cons in Hin as [-> | Hin]);
    try discriminate Hjump. by apply elem_of_nil in Hin.
Qed.

(** Where an instruction that raises has left the machine. *)
Lemma exec_raise labels inst m e m' :
  exec labels inst m = Raise e m' →
  match command (tokens inst) with
  | None => m' = m
  | Some cmd =>
    if bool_decide (cmd = PREFIX_KEYWORD)
    then declare_loop (operands cmd (tokens inst)) m = Raise e m'
    else if bool_decide (cmd = KW_NEG)
    then negate_loop (operands cmd (tokens inst)) m = Raise e m'
    else if bool_decide (cmd = KW_PRINT)
    then print_loop (operands cmd (tokens inst)) m = Raise e m'
    else m' = m
  end.
Proof.
  intros Hexec.
  destruct (command (tokens inst)) as [cmd|] eqn:Hcmd;
    [|unfold exec in Hexec; rewrite Hcmd in Hexec; by injection Hexec].
  destruct (contains KW_JUMP cmd) eqn:Hjump.
  - pose proof (jump_not_loop _ Hjump) as Hnot.
    rewrite !bool_decide_eq_false_2
      by (intros ->; apply Hnot; compute_done).
    rewrite (exec_jump _ _ _ _ Hcmd Hjump) in Hexec.
    destruct (jump_condition _ _) as [e'|[]]; [by injection Hexec| |done].
    destruct (labels !! _); [done|by injection Hexec].
  - destruct (command_cases cmd) as [Hin|Hnot].
    + repeat (apply elem_of_cons in Hin as [-> | Hin]).
      * rewrite (exec_declare _ _ _ Hcmd) in Hexec.
        rewrite bool_decide_eq_true_2 by done.
        by destruct (declare_loop _ _).
      * rewrite (exec_add _ _ _ Hcmd) in Hexec.
        rewrite !bool_decide_eq_false_2 by compute_done.
        destruct (arith _ _ _ _) eqn:Harith; [done|].
        injection Hexec as <- <-. by apply arith_raise in Harith.
      * rewrite (exec_sub _ _ _ Hcmd) in Hexec.
        rewrite !bool_decide_eq_false_2 by compute_done.
        destruct (arith _ _ _ _) eqn:Harith; [done|].
        injection Hexec as <- <-. by apply arith_raise in Harith.
      * rewrite (exec_mul _ _ _ Hcmd) in Hexec.
        rewrite !bool_decide_eq_false_2 by compute_done.
        destruct (arith _ _ _ _) eqn:Harith; [done|].
        injection Hexec as <- <-. by apply arith_raise in Harith.
      * rewrite (exec_negate _ _ _ Hcmd) in Hexec.
        rewrite bool_decide_eq_false_2 by compute_done.
        rewrite bool_decide_eq_true_2 by done.
        by destruct (negate_loop _ _).
      * rewrite (exec_print _ _ _ Hcmd) in Hexec.
        rewrite !bool_decide_eq_false_2 by compute_done.
        rewrite bool_decide_eq_true_2 by done.
        by destruct (print_loop _ _).
      * by apply elem_of_nil in Hin.
    + rewrite (exec_unknown _ _ _ _ Hcmd Hjump Hnot) in Hexec.
      injection Hexec as <- <-.
      rewrite !bool_decide_eq_false_2
        by (intros ->; apply Hnot; compute_done).
      done.
Qed.

(** Declaring defines: every declared name reads 0 afterwards. *)
Lemma declare_loop_defines subjects m :
  (∀ s, s ∈ subjects → CONSTANTS !! s = None) →
  ∃ m', declare_loop subjects m = Next m'
        ∧ ∀ name, name ∈ subjects ∨ variables m !! name = Some 0%Z →
                  variables m' !! name = Some 0%Z.
Proof.
  revert m. induction subjects as [|s subjects IH]; intros m Hmut; simpl.
  - exists m. split; [done|]. intros name [Hin|H]; [|done].
    by apply elem_of_nil in Hin.
  - rewrite (proj2 (check_mutable_None s)) by (apply Hmut; left).
    destruct (IH (Machine (<[s := 0%Z]> (variables m)) (pc m) (output m)))
      as (m' & Hloop & Hzero).
    { intros s' Hs'. apply Hmut. by right. }
    exists m'. split; [done|]. intros name Hname. apply Hzero. simpl.
    destruct (decide (s = name)) as [->|Hne].
    + right. apply lookup_insert_eq.
    + rewrite lookup_insert_ne by done.
      destruct Hname as [[->|Hin]%elem_of_cons|H]; [done|by left|by right].
Qed.

(** Negating reads the store directly: an undefined name becomes 0. *)
Lemma negate_loop_zero subjects m name :
  (∀ s, s ∈ subjects → CONSTANTS !! s = None) →
  stored (variables m) name = 0%Z →
  ∃ m', negate_loop subjects m = Next m'
        ∧ stored (variables m') name = 0%Z
        ∧ (name ∈ subjects ∨ variables m !! name = Some 0%Z →
           variables m' !! name = Some 0%Z).
Proof.
  revert m. induction subjects as [|s subjects IH]; intros m Hmut Hz; simpl.
  - exists m. split; [done|]. split; [done|].
    intros [Hin|H]; [|done]. by apply elem_of_nil in Hin.
  - rewrite (proj2 (check_mutable_None s)) by (apply Hmut; left).
    destruct (defaultdict_get (variables m) s) as [v vars] eqn:Hget.
    pose proof (defaultdict_get_insert (variables m) s Z.opp) as Hins.
    rewrite Hget in Hins. simpl in Hins. rewrite Hins.
    destruct (IH (Machine (<[s := (- stored (variables m) s)%Z]>
                             (variables m)) (pc m) (output m)))
      as (m' & Hloop & Hstored & Hzero).
    { intros s' Hs'. apply Hmut. by right. }
    { simpl. unfold stored in *.
      destruct (decide (s = name)) as [->|Hne].
      - rewrite lookup_insert_eq. simpl. lia.
      - by rewrite lookup_insert_ne. }
    exists m'. split; [done|]. split; [done|].
    intros Hname. apply Hzero. simpl.
    destruct (decide (s = name)) as [->|Hne].
    + right. rewrite lookup_insert_eq. f_equal. lia.
    + rewrite lookup_insert_ne by done.
      destruct Hname as [[->|Hin]%elem_of_cons|H]; [done|by left|by right].
Qed.

End Commands.

(** * The claims about the evaluator *)
Section EvaluatorClaims.

Import CKRLexer CKRParser CKREvaluator.

Implicit Types (m : machine) (vars labels : gmap str Z) (name cmd : str).

(** C6, where the code departs from it. A print instruction whose
    subjects all resolve writes, in subject order and with nothing in
    between, one character per value and changes no variable, as long as
    the values fit the C [int]: the character of the code point, or the
    question mark for a value that is no code point (negative values
    included) or a surrogate. A value beyond the C [int] is not replaced
    by the question mark: the [OverflowError] of [chr] is not caught, the
    values before it are written and the run ends with that exception. *)
Theorem print_command labels (inst : instruction) m (values : list Z) :
  command (tokens inst) = Some KW_PRINT →
  get_vals (variables m) (operands KW_PRINT (tokens inst)) = inr values →
  (Forall in_c_int values →
     exec labels inst m
     = Next (Machine (variables m) (pc m + 1)
                     (output m ++ (printed <$> values))))
  ∧ (∀ before v after,
       values = before ++ v :: after →
       Forall in_c_int before → ¬ in_c_int v →
       exec labels inst m
       = Raise OverflowError
               (Machine (variables m) (pc m)
                        (output m ++ (printed <$> before)))).
Proof.
  intros Hcmd Hvals. rewrite (exec_print _ _ _ Hcmd). split.
  - intros Hfit. by rewrite (print_loop_resolved _ _ _ Hvals Hfit).
  - intros before v after -> Hbefore Hv.
    by rewrite (print_loop_overflow _ _ _ _ _ Hvals Hbefore Hv).
Qed.

Lemma print_command_witness :
  (command (tokens (Examples.inst_of [Examples.a_comma; Examples.b; KW_PRINT]))
   = Some KW_PRINT
   ∧ get_vals (Examples.store_ab 72 2147483648)
       (operands KW_PRINT [Examples.a_comma; Examples.b; KW_PRINT])
     = inr [72%Z; 2147483648%Z]
   ∧ Forall in_c_int [72%Z]
   ∧ ¬ in_c_int 2147483648)
  ∧ exec ∅ (Examples.inst_of [Examples.a_comma; Examples.b; KW_PRINT])
         (Machine (Examples.store_ab 72 2147483648) 0 [])
    = Raise OverflowError
            (Machine (Examples.store_ab 72 2147483648) 0 [72%N]).
Proof.
  assert (command (tokens (Examples.inst_of
                             [Examples.a_comma; Examples.b; KW_PRINT]))
          = Some KW_PRINT) as H1 by reflexivity.
  assert (get_vals (Examples.store_ab 72 2147483648)
            (operands KW_PRINT [Examples.a_comma; Examples.b; KW_PRINT])
          = inr [72%Z; 2147483648%Z]) as H2 by (vm_compute; reflexivity).
  assert (Forall in_c_int [72%Z]) as H3
    by (repeat constructor; unfold in_c_int, INT_MIN, INT_MAX; lia).
  assert (¬ in_c_int 2147483648) as H4
    by (unfold in_c_int, INT_MIN, INT_MAX; lia).
  split; [done|].
  exact (proj2 (print_command ∅
                  (Examples.inst_of [Examples.a_comma; Examples.b; KW_PRINT])
                  (Machine (Examples.store_ab 72 2147483648) 0 []) _ H1 H2)
               [72%Z] 2147483648%Z [] eq_refl H3 H4).
Defined.

(** C6 as stated fails: a program that computes 2^32 and prints it does
    not write the question mark and go on; the run ends at the print
    instruction with an [OverflowError] and nothing written. *)
Lemma print_command_counterexample :
  tokenize Examples.overflow_program = inr Examples.overflow_groups
  ∧ run 9 (parse Examples.overflow_groups).1
          (parse Examples.overflow_groups).2 initial
    = Some (Raise OverflowError
                  (Machine (Examples.store_a 4294967296) 8 [])).
Proof.
  split; vm_compute; reflexivity.
Qed.

(** C4. An add, subtract or multiply instruction whose first subject is
    not a constant: with one subject, the stored value of the subject
    (0 when the store has none) is replaced by itself plus 1, minus 1 or
    times 2, whatever it is; with two or more subjects that all resolve,
    the first subject is assigned the sum of all values, the first value
    minus the sum of the others, or the product of all values. Nothing
    else changes, and the run goes on with the next instruction. *)
Theorem arithmetic_commands labels (inst : instruction) m cmd
        (target : str) (others : list str) :
  command (tokens inst) = Some cmd →
  cmd = KW_ADD ∨ cmd = KW_SUB ∨ cmd = KW_MUL →
  operands cmd (tokens inst) = target :: others →
  CONSTANTS !! target = None →
  (others = [] →
     exec labels inst m
     = Next (Machine
               (<[target := unit_rule cmd (stored (variables m) target)]>
                  (variables m))
               (pc m + 1) (output m)))
  ∧ (∀ first rest,
       others ≠ [] →
       get_vals (variables m) (target :: others) = inr (first :: rest) →
       exec labels inst m
       = Next (Machine
                 (<[target := fold_rule cmd first rest]> (variables m))
                 (pc m + 1) (output m))).
Proof.
  intros Hcmd Hkind Hops Hmut.
  split.
  - intros ->. by apply exec_unit_rule.
  - intros first rest Hne Hvals.
    destruct others as [|s others]; [done|].
    apply check_mutable_None in Hmut.
    arith_cases Hkind Hcmd;
      rewrite Hops; unfold arith; rewrite Hmut, Hvals; simpl;
      unfold with_variables; simpl; do 3 f_equal.
    + by rewrite sum_total.
    + unfold fold_rule.
      rewrite bool_decide_eq_false_2 by compute_done.
      rewrite bool_decide_eq_true_2 by done. by rewrite sum_total.
    + unfold fold_rule.
      rewrite !bool_decide_eq_false_2 by compute_done.
      by rewrite product_times.
Qed.

Lemma arithmetic_commands_witness :
  (command (tokens (Examples.inst_of [Examples.x; KW_ADD])) = Some KW_ADD
   ∧ operands KW_ADD [Examples.x; KW_ADD] = [Examples.x]
   ∧ CONSTANTS !! Examples.x = None)
  ∧ exec ∅ (Examples.inst_of [Examples.x; KW_ADD]) (Machine ∅ 0 [])
    = Next (Machine (<[Examples.x := 1%Z]> ∅) 1 [])
  ∧ exec ∅ (Examples.inst_of [Examples.a_comma; Examples.b; KW_MUL])
         (Machine (Examples.store_ab 3 4) 0 [])
    = Next (Machine (<[Examples.a := 12%Z]> (Examples.store_ab 3 4)) 1 []).
Proof.
  assert (command (tokens (Examples.inst_of [Examples.x; KW_ADD]))
          = Some KW_ADD) as H1 by reflexivity.
  assert (operands KW_ADD [Examples.x; KW_ADD] = [Examples.x]) as H2
    by (vm_compute; reflexivity).
  assert (CONSTANTS !! Examples.x = None) as H3 by (vm_compute; reflexivity).
  split; [done|]. split.
  - exact (proj1 (arithmetic_commands ∅
                    (Examples.inst_of [Examples.x; KW_ADD])
                    (Machine ∅ 0 []) KW_ADD Examples.x []
                    H1 (or_introl eq_refl) H2 H3) eq_refl).
  - refine (proj2 (arithmetic_commands ∅
                     (Examples.inst_of [Examples.a_comma; Examples.b; KW_MUL])
                     (Machine (Examples.store_ab 3 4) 0 []) KW_MUL
                     Examples.a [Examples.b]
                     eq_refl (or_intror (or_intror eq_refl)) _ _)
                  3%Z [4%Z] _ _).
    + vm_compute. reflexivity.
    + vm_compute. reflexivity.
    + discriminate.
    + vm_compute. reflexivity.
Defined.

(** C5. A conditional jump whose subjects resolve to [values]: with the
    equality-style operator the jump is taken exactly when there is one
    value and it is 0, or there are several and all equal the first;
    with the greater-than-style operator, exactly when there is one value
    and it is positive, or there are several and the first is strictly
    greater than every other; with no value at all the condition is
    false. A jump that is not taken goes on with the next instruction. *)
Theorem conditional_jump_semantics labels (inst : instruction) m cmd
        (cond_op : str) (values : list Z) :
  command (tokens inst) = Some cmd →
  contains KW_JUMP cmd = true →
  index (tokens inst) (-2) = Some cond_op →
  get_vals (variables m)
           (parse_subjects (join SPACE (drop_last 2 (tokens inst))))
  = inr values →
  let taken :=
    match labels !! remove_all KW_JUMP cmd with
    | Some target => Next (with_pc m target)
    | None =>
      Raise (CKRRuntimeError (MissingLabel (remove_all KW_JUMP cmd))) m
    end in
  let not_taken := Next (with_pc m (pc m + 1)) in
  (cond_op = KW_EQ →
     (equality_holds values → exec labels inst m = taken)
     ∧ (¬ equality_holds values → exec labels inst m = not_taken))
  ∧ (cond_op = KW_GT →
     (greater_holds values → exec labels inst m = taken)
     ∧ (¬ greater_holds values → exec labels inst m = not_taken))
  ∧ (cond_op = KW_EQ ∨ cond_op = KW_GT →
     values = [] → exec labels inst m = not_taken).
Proof.
  intros Hcmd Hjump Hop Hvals taken not_taken.
  assert (cond_op = KW_EQ ∨ cond_op = KW_GT →
          exec labels inst m
          = if condition_met cond_op values then taken else not_taken)
    as Hexec.
  { intros Hkind. rewrite (exec_jump _ _ _ _ Hcmd Hjump).
    rewrite (jump_condition_resolved _ _ _ values Hop); [|
      by destruct Hkind as [-> | ->]|done].
    by destruct (condition_met cond_op values). }
  split; [|split].
  - intros ->. rewrite Hexec by (by left).
    pose proof (condition_met_eq values) as Hspec.
    destruct (condition_met KW_EQ values); split; intros H; try done.
    + destruct H. by apply Hspec.
    + by apply Hspec in H.
  - intros ->. rewrite Hexec by (by right).
    pose proof (condition_met_gt values) as Hspec.
    destruct (condition_met KW_GT values); split; intros H; try done.
    + destruct H. by apply Hspec.
    + by apply Hspec in H.
  - intros Hkind ->. by rewrite Hexec.
Qed.

Lemma conditional_jump_semantics_witness :
  (command (tokens (Examples.inst_of
                      [Examples.a_comma; Examples.b; KW_GT;
                       Examples.jump_to_dots]))
   = Some Examples.jump_to_dots
   ∧ contains KW_JUMP Examples.jump_to_dots = true
   ∧ index [Examples.a_comma; Examples.b; KW_GT; Examples.jump_to_dots] (-2)
     = Some KW_GT
   ∧ get_vals (Examples.store_ab 5 4) [Examples.a; Examples.b]
     = inr [5%Z; 4%Z]
   ∧ greater_holds [5%Z; 4%Z])
  ∧ exec {[ Examples.dots := 7%Z ]}
         (Examples.inst_of
            [Examples.a_comma; Examples.b; KW_GT; Examples.jump_to_dots])
         (Machine (Examples.store_ab 5 4) 0 [])
    = Next (Machine (Examples.store_ab 5 4) 7 []).
Proof.
  assert (greater_holds [5%Z; 4%Z]) as Hgt.
  { right. split; [simpl; lia|].
    intros v ->%list_elem_of_singleton. lia. }
  split; [repeat split; try (vm_compute; reflexivity); exact Hgt|].
  refine (proj1 (proj1 (proj2 (conditional_jump_semantics
           {[ Examples.dots := 7%Z ]}
           (Examples.inst_of
              [Examples.a_comma; Examples.b; KW_GT; Examples.jump_to_dots])
           (Machine (Examples.store_ab 5 4) 0 [])
           Examples.jump_to_dots KW_GT [5%Z; 4%Z] _ _ _ _)) eq_refl) Hgt);
    vm_compute; reflexivity.
Defined.

(** C2, as the code has it. A conditional jump (comparator as
    second-to-last token) whose label is absent from the label table
    raises the missing-label error exactly when its subjects resolve and
    the condition is true; when the condition is false the instruction
    raises nothing and the run goes on with the next instruction; when a
    subject does not resolve, the error of that read is raised. *)
Theorem conditional_jump_missing_label labels (inst : instruction) m cmd
        (cond_op : str) :
  command (tokens inst) = Some cmd →
  contains KW_JUMP cmd = true →
  index (tokens inst) (-2) = Some cond_op →
  cond_op = KW_EQ ∨ cond_op = KW_GT →
  labels !! remove_all KW_JUMP cmd = None →
  exec labels inst m
  = match get_vals (variables m)
            (parse_subjects (join SPACE (drop_last 2 (tokens inst)))) with
    | inl e => Raise e m
    | inr values =>
      if condition_met cond_op values
      then Raise (CKRRuntimeError (MissingLabel (remove_all KW_JUMP cmd))) m
      else Next (with_pc m (pc m + 1))
    end.
Proof.
  intros Hcmd Hjump Hop Hkind Hlabel.
  rewrite (exec_jump _ _ _ _ Hcmd Hjump), Hlabel.
  unfold jump_condition. rewrite Hop.
  assert (contains KW_EQ cond_op || contains KW_GT cond_op = true) as ->
    by (by destruct Hkind as [-> | ->]).
  destruct (get_vals _ _) as [e|values]; [done|].
  by destruct (condition_met cond_op values).
Qed.

Lemma conditional_jump_missing_label_witness :
  (command (tokens (Examples.inst_of
                      [Examples.a; KW_EQ; Examples.jump_to_dots]))
   = Some Examples.jump_to_dots
   ∧ contains KW_JUMP Examples.jump_to_dots = true
   ∧ index [Examples.a; KW_EQ; Examples.jump_to_dots] (-2) = Some KW_EQ
   ∧ (∅ : gmap str Z) !! remove_all KW_JUMP Examples.jump_to_dots = None)
  ∧ exec ∅ (Examples.inst_of [Examples.a; KW_EQ; Examples.jump_to_dots])
         (Machine (Examples.store_a 0) 0 [])
    = Raise (CKRRuntimeError (MissingLabel Examples.dots))
            (Machine (Examples.store_a 0) 0 []).
Proof.
  split; [repeat split; vm_compute; reflexivity|].
  rewrite (conditional_jump_missing_label ∅
             (Examples.inst_of [Examples.a; KW_EQ; Examples.jump_to_dots])
             (Machine (Examples.store_a 0) 0 [])
             Examples.jump_to_dots KW_EQ
             eq_refl eq_refl eq_refl (or_introl eq_refl) (lookup_empty _)).
  vm_compute. reflexivity.
Defined.

(** C2 as stated fails: with a false condition, a conditional jump to a
    label that is not in the table raises nothing. *)
Lemma conditional_jump_missing_label_counterexample :
  command (tokens (Examples.inst_of
                     [Examples.a; KW_EQ; Examples.jump_to_dots]))
  = Some Examples.jump_to_dots
  ∧ index [Examples.a; KW_EQ; Examples.jump_to_dots] (-2) = Some KW_EQ
  ∧ (∅ : gmap str Z) !! remove_all KW_JUMP Examples.jump_to_dots = None
  ∧ exec ∅ (Examples.inst_of [Examples.a; KW_EQ; Examples.jump_to_dots])
         (Machine (Examples.store_a 1) 0 [])
    = Next (Machine (Examples.store_a 1) 1 []).
Proof. repeat split; vm_compute; reflexivity. Qed.

(** C3, as the code has it. An instruction that raises leaves the
    program counter as it was. For add, subtract, multiply, the jumps and
    an unknown command it leaves the whole machine as it was. Declare,
    negate and print treat their subjects one after the other: at the
    raise the machine is the one reached by running the same command on
    the subjects before the failing one, whose effects stay; it is the
    machine from before the instruction when the first subject fails. *)
Theorem failed_instruction_effects labels (inst : instruction) m
        (e : exn) m' :
  exec labels inst m = Raise e m' →
  pc m' = pc m
  ∧ (command (tokens inst) = None → m' = m)
  ∧ (∀ cmd, command (tokens inst) = Some cmd →
            cmd ∉ [PREFIX_KEYWORD; KW_NEG; KW_PRINT] → m' = m)
  ∧ (command (tokens inst) = Some PREFIX_KEYWORD →
     ∃ done_ failing rest,
       operands PREFIX_KEYWORD (tokens inst) = done_ ++ failing :: rest
       ∧ declare_loop done_ m = Next m'
       ∧ declare_loop [failing] m' = Raise e m'
       ∧ (done_ = [] → m' = m))
  ∧ (command (tokens inst) = Some KW_NEG →
     ∃ done_ failing rest,
       operands KW_NEG (tokens inst) = done_ ++ failing :: rest
       ∧ negate_loop done_ m = Next m'
       ∧ negate_loop [failing] m' = Raise e m'
       ∧ (done_ = [] → m' = m))
  ∧ (command (tokens inst) = Some KW_PRINT →
     ∃ done_ failing rest,
       operands KW_PRINT (tokens inst) = done_ ++ failing :: rest
       ∧ print_loop done_ m = Next m'
       ∧ print_loop [failing] m' = Raise e m'
       ∧ (done_ = [] → m' = m)).
Proof.
  intros Hexec. apply exec_raise in Hexec.
  repeat split.
  - destruct (command (tokens inst)) as [cmd|]; [|by subst].
    repeat case_bool_decide; [| | |by subst].
    + by apply (declare_loop_frame (operands cmd (tokens inst))); eauto.
    + by apply (negate_loop_frame (operands cmd (tokens inst))); eauto.
    + by apply (print_loop_frame (operands cmd (tokens inst))); eauto.
  - intros Hcmd. by rewrite Hcmd in Hexec.
  - intros cmd Hcmd Hnot. rewrite Hcmd in Hexec.
    rewrite !bool_decide_eq_false_2 in Hexec
      by (intros ->; apply Hnot; compute_done).
    done.
  - intros Hcmd. rewrite Hcmd in Hexec.
    rewrite bool_decide_eq_true_2 in Hexec by done.
    apply declare_loop_raise in Hexec. first_failure Hexec.
  - intros Hcmd. rewrite Hcmd in Hexec.
    rewrite bool_decide_eq_false_2 in Hexec by compute_done.
    rewrite bool_decide_eq_true_2 in Hexec by done.
    apply negate_loop_raise in Hexec. first_failure Hexec.
  - intros Hcmd. rewrite Hcmd in Hexec.
    rewrite !bool_decide_eq_false_2 in Hexec by compute_done.
    rewrite bool_decide_eq_true_2 in Hexec by done.
    apply print_loop_raise in Hexec. first_failure Hexec.
Qed.

Lemma failed_instruction_effects_witness :
  exec ∅ (Examples.inst_of [PREFIX_KEYWORD; Examples.a_comma; NAME_ZERO])
       (Machine ∅ 0 [])
  = Raise (CKRRuntimeError (ConstantMutation NAME_ZERO))
          (Machine (Examples.store_a 0) 0 [])
  ∧ pc (Machine (Examples.store_a 0) 0 []) = pc (Machine ∅ 0 [])
  ∧ ∃ done_ failing rest,
      operands PREFIX_KEYWORD
               [PREFIX_KEYWORD; Examples.a_comma; NAME_ZERO]
      = done_ ++ failing :: rest
      ∧ declare_loop done_ (Machine ∅ 0 [])
        = Next (Machine (Examples.store_a 0) 0 [])
      ∧ declare_loop [failing] (Machine (Examples.store_a 0) 0 [])
        = Raise (CKRRuntimeError (ConstantMutation NAME_ZERO))
                (Machine (Examples.store_a 0) 0 [])
      ∧ (done_ = [] → Machine (Examples.store_a 0) 0 [] = Machine ∅ 0 []).
Proof.
  assert (exec ∅ (Examples.inst_of
                    [PREFIX_KEYWORD; Examples.a_comma; NAME_ZERO])
               (Machine ∅ 0 [])
          = Raise (CKRRuntimeError (ConstantMutation NAME_ZERO))
                  (Machine (Examples.store_a 0) 0 [])) as H
    by (vm_compute; reflexivity).
  split; [exact H|].
  destruct (failed_instruction_effects _ _ _ _ _ H)
    as (Hpc & _ & _ & Hdeclare & _).
  split; [exact Hpc|]. exact (Hdeclare eq_refl).
Defined.

(** C3 as stated fails: a declare whose second subject is a constant has
    zeroed its first subject when it raises; a negate whose second
    subject is a constant has negated the first; a print whose second
    subject is undefined has printed the first. *)
Lemma failed_instruction_effects_counterexample :
  exec ∅ (Examples.inst_of [PREFIX_KEYWORD; Examples.a_comma; NAME_ZERO])
       (Machine ∅ 0 [])
  = Raise (CKRRuntimeError (ConstantMutation NAME_ZERO))
          (Machine (Examples.store_a 0) 0 [])
  ∧ Examples.store_a 0 ≠ ∅
  ∧ exec ∅ (Examples.inst_of [Examples.a_comma; NAME_ZERO; KW_NEG])
         (Machine (Examples.store_a 5) 0 [])
    = Raise (CKRRuntimeError (ConstantMutation NAME_ZERO))
            (Machine (Examples.store_a (-5)) 0 [])
  ∧ exec ∅ (Examples.inst_of [Examples.a_comma; Examples.x; KW_PRINT])
         (Machine (Examples.store_a 72) 0 [])
    = Raise (CKRRuntimeError (UndefinedVariable Examples.x))
            (Machine (Examples.store_a 72) 0 [72%N]).
Proof.
  repeat split; try (vm_compute; reflexivity).
  intros H. apply (f_equal (λ vars : gmap str Z, vars !! Examples.a)) in H.
  vm_compute in H. discriminate.
Qed.

(** C1, as the code has it. A name that is neither a constant nor in the
    store: every read through [get_val] raises the undefined-variable
    error, which is what print, add, subtract and multiply with two or
    more subjects, and the conditional jumps do with their subjects;
    print reads its subjects one at a time, so it gets to the name when
    the subjects before it resolve to values that fit the C [int], which
    it has then written. The one-subject forms of add, subtract and
    multiply and every subject of negate index the store directly, where
    a missing name counts as 0: they raise nothing and leave the name
    defined (1, -1, 0 and 0). After a declare of the name, reads of it
    return 0. *)
Theorem undefined_variable_reads labels (inst : instruction) m cmd name :
  command (tokens inst) = Some cmd →
  undefined (variables m) name →
  get_val (variables m) name
  = inl (CKRRuntimeError (UndefinedVariable name))
  ∧ (cmd = KW_PRINT →
     ∀ done_ rest values,
       operands cmd (tokens inst) = done_ ++ name :: rest →
       get_vals (variables m) done_ = inr values →
       Forall in_c_int values →
       exec labels inst m
       = Raise (CKRRuntimeError (UndefinedVariable name))
               (Machine (variables m) (pc m)
                        (output m ++ (printed <$> values))))
  ∧ (cmd = KW_ADD ∨ cmd = KW_SUB ∨ cmd = KW_MUL →
     ∀ target other others,
       operands cmd (tokens inst) = target :: other :: others →
       CONSTANTS !! target = None →
       name ∈ target :: other :: others →
       ∃ s, undefined (variables m) s
            ∧ exec labels inst m
              = Raise (CKRRuntimeError (UndefinedVariable s)) m)
  ∧ (contains KW_JUMP cmd = true →
     ∀ cond_op,
       index (tokens inst) (-2) = Some cond_op →
       cond_op = KW_EQ ∨ cond_op = KW_GT →
       name ∈ parse_subjects (join SPACE (drop_last 2 (tokens inst))) →
       ∃ s, undefined (variables m) s
            ∧ exec labels inst m
              = Raise (CKRRuntimeError (UndefinedVariable s)) m)
  ∧ (cmd = KW_ADD ∨ cmd = KW_SUB ∨ cmd = KW_MUL →
     operands cmd (tokens inst) = [name] →
     exec labels inst m
     = Next (Machine (<[name := unit_rule cmd 0]> (variables m))
                     (pc m + 1) (output m)))
  ∧ (cmd = KW_NEG →
     name ∈ operands cmd (tokens inst) →
     (∀ s, s ∈ operands cmd (tokens inst) → CONSTANTS !! s = None) →
     ∃ m', exec labels inst m = Next m'
           ∧ variables m' !! name = Some 0%Z)
  ∧ (cmd = PREFIX_KEYWORD →
     name ∈ operands cmd (tokens inst) →
     (∀ s, s ∈ operands cmd (tokens inst) → CONSTANTS !! s = None) →
     ∃ m', exec labels inst m = Next m'
           ∧ get_val (variables m') name = inr 0%Z).
Proof.
  intros Hcmd Hundef.
  split; [by apply get_val_undefined|].
  split; [|split; [|split; [|split; [|split]]]].
  - intros -> done_ rest values Hops Hvals Hfit.
    rewrite (exec_print _ _ _ Hcmd), Hops.
    rewrite (print_loop_app _ _ _ _
               (print_loop_resolved _ _ _ Hvals Hfit)).
    simpl. by rewrite (get_val_undefined _ _ Hundef).
  - intros Hkind target other others Hops Hmut Hin.
    destruct (get_vals_undefined _ _ _ Hin Hundef) as (s & Hs & Hvals).
    exists s. split; [done|].
    apply check_mutable_None in Hmut.
    arith_cases Hkind Hcmd;
      rewrite Hops; unfold arith; by rewrite Hmut, Hvals.
  - intros Hjump cond_op Hop Hkind Hin.
    destruct (get_vals_undefined _ _ _ Hin Hundef) as (s & Hs & Hvals).
    exists s. split; [done|].
    rewrite (exec_jump _ _ _ _ Hcmd Hjump). unfold jump_condition.
    rewrite Hop.
    assert (contains KW_EQ cond_op || contains KW_GT cond_op = true) as ->
      by (by destruct Hkind as [-> | ->]).
    by rewrite Hvals.
  - intros Hkind Hops.
    rewrite (exec_unit_rule _ _ _ _ _ Hcmd Hkind Hops (proj1 Hundef)).
    unfold stored. by rewrite (proj2 Hundef).
  - intros -> Hin Hmut. rewrite (exec_negate _ _ _ Hcmd).
    destruct (negate_loop_zero (operands KW_NEG (tokens inst)) m name Hmut)
      as (m' & Hloop & _ & Hzero).
    { unfold stored. by rewrite (proj2 Hundef). }
    rewrite Hloop. simpl. eexists. split; [done|]. simpl.
    apply Hzero. by left.
  - intros -> Hin Hmut. rewrite (exec_declare _ _ _ Hcmd).
    destruct (declare_loop_defines (operands PREFIX_KEYWORD (tokens inst))
                                   m Hmut) as (m' & Hloop & Hzero).
    rewrite Hloop. simpl. eexists. split; [done|]. simpl.
    unfold get_val. rewrite (proj1 Hundef), (Hzero name); [done|by left].
Qed.

Lemma undefined_variable_reads_witness :
  (command (tokens (Examples.inst_of [Examples.x; KW_PRINT]))
   = Some KW_PRINT
   ∧ undefined ∅ Examples.x)
  ∧ get_val ∅ Examples.x
    = inl (CKRRuntimeError (UndefinedVariable Examples.x))
  ∧ exec ∅ (Examples.inst_of [Examples.x; KW_PRINT]) (Machine ∅ 0 [])
    = Raise (CKRRuntimeError (UndefinedVariable Examples.x))
            (Machine ∅ 0 []).
Proof.
  assert (command (tokens (Examples.inst_of [Examples.x; KW_PRINT]))
          = Some KW_PRINT) as H1 by reflexivity.
  assert (undefined ∅ Examples.x) as H2
    by (split; vm_compute; reflexivity).
  split; [done|].
  destruct (undefined_variable_reads ∅
              (Examples.inst_of [Examples.x; KW_PRINT])
              (Machine ∅ 0 []) KW_PRINT Examples.x H1 H2)
    as (Hget & Hprint & _).
  split; [exact Hget|].
  exact (Hprint eq_refl [] [] [] eq_refl eq_refl (List.Forall_nil _)).
Defined.

(** C1 as stated fails: the one-subject add, subtract and multiply and
    the negate of a name that is neither a constant nor in the store
    raise nothing. *)
Lemma undefined_variable_reads_counterexample :
  undefined ∅ Examples.x
  ∧ exec ∅ (Examples.inst_of [Examples.x; KW_ADD]) (Machine ∅ 0 [])
    = Next (Machine {[ Examples.x := 1%Z ]} 1 [])
  ∧ exec ∅ (Examples.inst_of [Examples.x; KW_SUB]) (Machine ∅ 0 [])
    = Next (Machine {[ Examples.x := (-1)%Z ]} 1 [])
  ∧ exec ∅ (Examples.inst_of [Examples.x; KW_MUL]) (Machine ∅ 0 [])
    = Next (Machine {[ Examples.x := 0%Z ]} 1 [])
  ∧ exec ∅ (Examples.inst_of [Examples.x; KW_NEG]) (Machine ∅ 0 [])
    = Next (Machine {[ Examples.x := 0%Z ]} 1 []).
Proof. repeat split; vm_compute; reflexivity. Qed.

End EvaluatorClaims.

(** * The program counter *)
Section ProgramCounter.

Import CKRLexer CKRParser CKREvaluator.

Implicit Types (m : machine) (labels : gmap str Z).

Lemma parse_group_in_range acc group :
  labels_in_range acc → labels_in_range (parse_group acc group).
Proof.
  destruct acc as [instructions labels]. intros Hinv.
  unfold parse_group. destruct group as [|first group]; [done|].
  destruct (startswith LABEL_KEYWORD first); intros name k; simpl.
  - destruct (decide (strip (remove_all LABEL_KEYWORD first) = name))
      as [->|Hne].
    + rewrite lookup_insert_eq. intros [= <-]. lia.
    + rewrite lookup_insert_ne by done. apply Hinv.
  - intros H%Hinv. simpl in H. rewrite length_app. simpl. lia.
Qed.

Lemma parse_in_range groups : labels_in_range (parse groups).
Proof.
  unfold parse.
  assert (labels_in_range (([], ∅) : list instruction * gmap str Z))
    as Hinit by (intros name k; simpl; by rewrite lookup_empty).
  revert Hinit. generalize (([], ∅) : list instruction * gmap str Z).
  induction groups as [|group groups IH]; intros acc Hacc; simpl; [done|].
  by apply IH, parse_group_in_range.
Qed.

(** An instruction that raises nothing advances by one or jumps to the
    index of a label. *)
Lemma exec_next_pc labels inst m m' :
  exec labels inst m = Next m' →
  pc m' = (pc m + 1)%Z ∨ ∃ name, labels !! name = Some (pc m').
Proof.
  unfold exec. destruct (command (tokens inst)) as [cmd|]; [|done].
  destruct (contains KW_JUMP cmd).
  - destruct (jump_condition _ _) as [e0|[]]; [done| |].
    + destruct (labels !! remove_all KW_JUMP cmd) as [target|] eqn:Hl;
        [|done].
      intros [= <-]. right. by eexists.
    + intros [= <-]. by left.
  - intros H. left.
    repeat case_bool_decide;
      match type of H with
      | advance ?r = _ => destruct r as [m1|e1 m1] eqn:Hr; [|done]
      end;
      injection H as <-; simpl; f_equal.
    + by apply (declare_loop_frame (operands cmd (tokens inst))); eauto.
    + by eapply arith_pc.
    + by eapply arith_pc.
    + by eapply arith_pc.
    + by apply (negate_loop_frame (operands cmd (tokens inst))); eauto.
    + by apply (print_loop_frame (operands cmd (tokens inst))); eauto.
    + done.
Qed.

Lemma index_in_range {A} (xs : list A) (i : Z) :
  (0 ≤ i < Z.of_nat (length xs))%Z →
  ∃ x, xs !! Z.to_nat i = Some x ∧ index xs i = Some x.
Proof.
  intros Hi. destruct (lookup_lt_is_Some_2 xs (Z.to_nat i)) as [x Hx];
    [lia|].
  exists x. split; [done|]. unfold index.
  by rewrite (proj2 (Z.leb_le 0 i)) by lia.
Qed.

Lemma step_in_range instructions labels m m' :
  (∀ name k, labels !! name = Some k → (0 ≤ k ≤ Z.of_nat (length instructions))%Z) →
  (0 ≤ pc m ≤ Z.of_nat (length instructions))%Z →
  steps_to instructions labels m m' →
  (0 ≤ pc m' ≤ Z.of_nat (length instructions))%Z.
Proof.
  intros Hlabels Hpc. unfold steps_to, step. case_bool_decide; [|done].
  destruct (index_in_range instructions (pc m)) as (inst & _ & ->); [lia|].
  intros [= [->|[name Hname]]%exec_next_pc]; [lia|].
  by eapply Hlabels.
Qed.

Lemma run_loop_reaches fuel instructions labels m m' :
  run_loop fuel instructions labels m = Some (Next m') →
  rtc (steps_to instructions labels) m m'
  ∧ step instructions labels m' = None.
Proof.
  revert m. induction fuel as [|fuel IH]; intros m; simpl.
  - destruct (step instructions labels m) as [[m1|e m1]|] eqn:Hstep;
      [done|done|].
    by intros [= <-].
  - destruct (step instructions labels m) as [[m1|e m1]|] eqn:Hstep;
      [|done|by intros [= <-]].
    intros [Hrtc Hend]%IH. split; [|done]. by eapply rtc_l.
Qed.

(** C10. For the instructions and labels built by the parser, every
    label value lies between 0 and the number of instructions, and in any
    run started by [run] the program counter stays in that range: a fetch
    is always at an index inside the list, and at the index equal to the
    number of instructions the run ends. *)
Theorem program_counter_in_range (groups : list (list str))
        (instructions : list instruction) labels :
  parse groups = (instructions, labels) →
  (∀ name k, labels !! name = Some k → (0 ≤ k ≤ Z.of_nat (length instructions))%Z)
  ∧ (∀ m0 m,
       rtc (steps_to instructions labels) (with_pc m0 0) m →
       (0 ≤ pc m ≤ Z.of_nat (length instructions))%Z
       ∧ ((pc m < Z.of_nat (length instructions))%Z →
          ∃ inst, instructions !! Z.to_nat (pc m) = Some inst
                  ∧ step instructions labels m
                    = Some (exec labels inst m))
       ∧ (pc m = Z.of_nat (length instructions) →
          step instructions labels m = None))
  ∧ (∀ fuel m0 m,
       run fuel instructions labels m0 = Some (Next m) →
       pc m = Z.of_nat (length instructions)).
Proof.
  intros Hparse.
  assert (∀ name k, labels !! name = Some k →
                    (0 ≤ k ≤ Z.of_nat (length instructions))%Z) as Hlabels.
  { pose proof (parse_in_range groups) as H. by rewrite Hparse in H. }
  assert (∀ m0 m, rtc (steps_to instructions labels) (with_pc m0 0) m →
                  (0 ≤ pc m ≤ Z.of_nat (length instructions))%Z) as Hrange.
  { intros m0 m Hrtc.
    assert (0 ≤ pc (with_pc m0 0) ≤ Z.of_nat (length instructions))%Z as Hstart
      by (simpl; lia).
    revert Hstart. generalize (with_pc m0 0) Hrtc. clear Hrtc.
    intros m1 Hrtc. induction Hrtc as [|m1 m2 m3 Hstep _ IH]; [done|].
    intros Hm1. by eapply IH, step_in_range. }
  split; [done|]. split.
  - intros m0 m Hrtc. pose proof (Hrange _ _ Hrtc) as Hpc.
    split; [done|]. split.
    + intros Hlt.
      destruct (index_in_range instructions (pc m)) as (inst & Hl & Hi);
        [lia|].
      exists inst. split; [done|]. unfold step.
      by rewrite bool_decide_eq_true_2, Hi.
    + intros Heq. unfold step. rewrite bool_decide_eq_false_2; [done|lia].
  - intros fuel m0 m [Hrtc Hend]%run_loop_reaches.
    pose proof (Hrange _ _ Hrtc) as Hpc.
    unfold step in Hend. case_bool_decide; [|lia].
    by destruct (index instructions (pc m)).
Qed.

Lemma program_counter_in_range_witness :
  parse Examples.loop_groups
  = (Examples.loop_instructions, Examples.loop_labels)
  ∧ (∀ name k, Examples.loop_labels !! name = Some k →
               (0 ≤ k ≤ Z.of_nat (length Examples.loop_instructions))%Z)
  ∧ Examples.loop_labels !! Examples.dots
    = Some (Z.of_nat (length Examples.loop_instructions)).
Proof.
  assert (parse Examples.loop_groups
          = (Examples.loop_instructions, Examples.loop_labels)) as H
    by (vm_compute; reflexivity).
  split; [exact H|]. split.
  - exact (proj1 (program_counter_in_range _ _ _ H)).
  - vm_compute. reflexivity.
Defined.

End ProgramCounter.

(** * Further properties of the lexer *)
Section LexerMore.

Import CKRLexer.

(** ** Quote removal *)

(** A text in which no quote has a partner after it is left as it is. *)
Lemma remove_quoted_go_fixed s :
  (∀ before q after,
     s = before ++ q :: after → is_quote q = true → q ∉ after) →
  remove_quoted_go None s = s.
Proof.
  induction s as [|c s IH]; intros Hlonely; simpl; [done|].
  destruct (is_quote c) eqn:Hc; simpl.
  - assert (occurs c s = false) as ->.
    { apply occurs_false_not_elem. by apply (Hlonely [] c s). }
    f_equal. apply IH. intros before q after -> Hq.
    by apply (Hlonely (c :: before) q after).
  - f_equal. apply IH. intros before q after -> Hq.
    by apply (Hlonely (c :: before) q after).
Qed.

(** X1. Quote removal is idempotent: the cleaned text holds no span that
    a second removal could delete. *)
Theorem remove_quoted_idempotent (raw : str) :
  remove_quoted (remove_quoted raw) = remove_quoted raw.
Proof.
  apply remove_quoted_go_fixed. intros before q after Heq Hq.
  by eapply remove_quoted_go_lonely.
Qed.

(** ** Marker extraction *)

(** The text between an occurrence of [a] at [i] and a later occurrence
    of [b] at [j]. *)
Lemma slice_between (a b text : str) (i j : nat) :
  occurs_at a text i → occurs_at b text j → (i + length a ≤ j)%nat →
  ∃ post,
    text = take i text ++ a ++ slice (i + length a) j text ++ b ++ post
    ∧ length (take i text) = i
    ∧ length (slice (i + length a) j text) = (j - (i + length a))%nat.
Proof.
  intros (pre & rest & -> & <-) (pre2 & post & Heq & <-) Hle.
  exists post. rewrite take_app_length. split; [|split; [done|]].
  - f_equal. f_equal.
    assert (pre2 = pre ++ a ++ slice (length pre + length a) (length pre2)
                                     (pre ++ a ++ rest)) as Hpre2.
    { unfold slice. rewrite (app_assoc pre a rest), <- length_app.
      rewrite drop_app_length.
      assert (take (length pre2) ((pre ++ a) ++ rest) = pre2) as Htake
        by (rewrite <- app_assoc, Heq; apply take_app_length).
      rewrite take_app_ge in Htake by (rewrite length_app; lia).
      rewrite <- Htake at 1. by rewrite <- app_assoc. }
    rewrite Hpre2 in Heq at 1. rewrite <- !app_assoc in Heq.
    by do 2 apply app_inv_head in Heq.
  - unfold slice. rewrite length_take, length_drop.
    assert (length pre2 ≤ length (pre ++ a ++ rest))%nat
      by (rewrite Heq, length_app; lia).
    lia.
Qed.

(** X2. [clean_code] succeeds exactly when the cleaned text reads
    [pre ++ START_MARKER ++ core ++ END_MARKER ++ post] with a non-empty
    [core], both markers at their first occurrence; it then returns
    [core]. An end marker that begins inside or right behind the first
    start marker is a syntax error. *)
Theorem clean_code_success (raw core : str) :
  clean_code raw = inr core ↔
  core ≠ []
  ∧ ∃ pre post,
      remove_quoted raw = pre ++ START_MARKER ++ core ++ END_MARKER ++ post
      ∧ first_index START_MARKER (remove_quoted raw) (length pre)
      ∧ first_index END_MARKER (remove_quoted raw)
                    (length pre + length START_MARKER + length core).
Proof.
  unfold clean_code, extract_core.
  generalize (remove_quoted raw). intros text. split.
  - destruct (find START_MARKER text) as [i|] eqn:Hi; [|done].
    destruct (find END_MARKER text) as [j|] eqn:Hj; [|done].
    case_bool_decide as Hle; [done|]. intros Hcore.
    assert (slice (i + length START_MARKER) j text = core) as <-
      by congruence.
    apply find_first_index in Hi, Hj.
    destruct (slice_between START_MARKER END_MARKER text i j
                (proj1 Hi) (proj1 Hj)) as (post & Htext & Hpre & Hlen);
      [lia|].
    split.
    { intros Hnil. rewrite Hnil in Hlen.
      change (length (@nil N)) with 0%nat in Hlen. lia. }
    exists (take i text), post. rewrite Hpre, Hlen.
    split; [done|]. split; [done|].
    by replace (i + length START_MARKER + (j - (i + length START_MARKER)))%nat
      with j by lia.
  - intros (Hcore & pre & post & Htext & Hi & Hj).
    apply find_first_index in Hi, Hj. rewrite Hi, Hj.
    assert (length core ≠ 0)%nat by (by destruct core).
    rewrite bool_decide_eq_false_2 by lia. f_equal.
    unfold slice. rewrite Htext.
    rewrite (app_assoc pre), <- length_app, drop_app_length.
    replace (length (pre ++ START_MARKER) + length core
             - length (pre ++ START_MARKER))%nat with (length core) by lia.
    by rewrite take_app_length.
Qed.

End LexerMore.

(** * Further properties of the tokenizer *)
Section TokenizerMore.

Import CKRLexer.

(** ** Splitting on white space *)

Lemma is_linebreak_isspace c : is_linebreak c = true → isspace c = true.
Proof.
  unfold is_linebreak, isspace. intros H.
  repeat (apply orb_prop in H as [H|H]);
    repeat (apply andb_prop in H as [? ?]);
    repeat match goal with
           | H : (_ <=? _)%N = true |- _ => apply N.leb_le in H
           | H : (_ =? _)%N = true |- _ => apply N.eqb_eq in H
           end.
  - replace (9 <=? c)%N with true by (symmetry; apply N.leb_le; lia).
    replace (c <=? 13)%N with true by (symmetry; apply N.leb_le; lia).
    done.
  - replace (28 <=? c)%N with true by (symmetry; apply N.leb_le; lia).
    replace (c <=? 32)%N with true by (symmetry; apply N.leb_le; lia).
    by rewrite orb_true_r.
  - subst c. reflexivity.
  - subst c. reflexivity.
  - subst c. reflexivity.
Qed.

(** A white space character closes the word being read. *)
Lemma split_go_space acc a c b :
  isspace c = true → split_go acc (a ++ c :: b) = split_go acc a ++ split b.
Proof.
  intros Hc. revert acc. induction a as [|x a IH]; intros acc; simpl.
  - rewrite Hc. by destruct acc.
  - destruct (isspace x); [|apply IH].
    destruct acc; simpl; by rewrite IH.
Qed.

Lemma split_all_space sp :
  Forall (λ c, isspace c = true) sp → split sp = [].
Proof.
  unfold split. induction 1 as [|c sp Hc _ IH]; simpl; [done|].
  by rewrite Hc.
Qed.

Lemma split_go_spaces acc a sp :
  Forall (λ c, isspace c = true) sp → split_go acc (a ++ sp) = split_go acc a.
Proof.
  intros Hsp. destruct Hsp as [|c sp Hc Hsp].
  - by rewrite app_nil_r.
  - rewrite split_go_space, split_all_space by done. by rewrite app_nil_r.
Qed.

Lemma lstrip_decomp s :
  ∃ sp, s = sp ++ lstrip s ∧ Forall (λ c, isspace c = true) sp.
Proof.
  induction s as [|c s (sp & Hs & Hsp)]; simpl.
  - by exists [].
  - destruct (isspace c) eqn:Hc.
    + exists (c :: sp). split; [by rewrite Hs at 1|by constructor].
    + by exists [].
Qed.

Lemma rstrip_decomp s :
  ∃ sp, s = rstrip s ++ sp ∧ Forall (λ c, isspace c = true) sp.
Proof.
  unfold rstrip. destruct (lstrip_decomp (rev s)) as (sp & Hs & Hsp).
  exists (rev sp). split.
  - rewrite <- rev_app_distr, <- Hs. by rewrite rev_involutive.
  - apply Forall_forall. intros c Hc%list_elem_of_In%in_rev%list_elem_of_In.
    by eapply Forall_forall in Hsp.
Qed.

Lemma split_lstrip s : split (lstrip s) = split s.
Proof.
  unfold split. induction s as [|c s IH]; simpl; [done|].
  destruct (isspace c) eqn:Hc; [done|]. simpl. by rewrite Hc.
Qed.

Lemma split_rstrip s : split (rstrip s) = split s.
Proof.
  destruct (rstrip_decomp s) as (sp & Hs & Hsp). unfold split.
  rewrite Hs at 2. by rewrite split_go_spaces.
Qed.

(** Stripping a line does not change its words. *)
Lemma split_strip s : split (strip s) = split s.
Proof. unfold strip. by rewrite split_rstrip, split_lstrip. Qed.

(** Every word is non-empty and free of white space. *)
Lemma split_go_clean acc s :
  (∀ c, c ∈ acc → isspace c = false) →
  Forall clean_token (split_go acc s).
Proof.
  revert acc. induction s as [|c s IH]; intros acc Hacc; simpl.
  - destruct acc as [|x acc]; [constructor|].
    constructor; [|constructor]. by split.
  - destruct (isspace c) eqn:Hc.
    + destruct acc as [|x acc].
      * apply IH. intros d Hd. by apply elem_of_nil in Hd.
      * constructor; [by split|].
        apply IH. intros d Hd. by apply elem_of_nil in Hd.
    + apply IH. intros d [Hd | ->%list_elem_of_singleton]%elem_of_app;
        [by apply Hacc|done].
Qed.

Lemma split_clean s : Forall clean_token (split s).
Proof.
  apply split_go_clean. intros c Hc. by apply elem_of_nil in Hc.
Qed.

(** ** Lines *)

(** The words of the lines are the words of the text. *)
Lemma splitlines_go_words after_cr cur s :
  (after_cr = true → cur = []) →
  concat (split <$> splitlines_go after_cr cur s) = split (cur ++ s).
Proof.
  revert after_cr cur. induction s as [|c s IH]; intros after_cr cur Hinv.
  - simpl. rewrite app_nil_r. destruct cur; [done|]. simpl.
    by rewrite app_nil_r.
  - simpl. destruct (after_cr && (c =? 10)%N) eqn:Hskip.
    + apply andb_prop in Hskip as [-> ->%N.eqb_eq]. rewrite Hinv by done.
      rewrite IH by done. done.
    + destruct (is_linebreak c) eqn:Hc.
      * simpl. rewrite IH by done. simpl. unfold split.
        by rewrite split_go_space by (by apply is_linebreak_isspace).
      * rewrite IH by done. by rewrite <- app_assoc.
Qed.

Lemma nonblank_words (lines : list str) :
  concat (split <$> (strip <$> filter (λ line, strip line ≠ []) lines))
  = concat (split <$> lines).
Proof.
  induction lines as [|l lines IH]; [done|].
  rewrite filter_cons, !fmap_cons. cbn [concat]. rewrite <- IH.
  destruct (decide (strip l ≠ [])) as [Hl|Hl].
  - rewrite !fmap_cons. cbn [concat]. by rewrite split_strip.
  - apply dec_stable in Hl. by rewrite <- (split_strip l), Hl.
Qed.

Lemma start_lines_words core :
  concat (split <$> start_lines core) = split core.
Proof.
  unfold start_lines, splitlines. rewrite nonblank_words.
  by rewrite splitlines_go_words.
Qed.

(** Lines of two texts joined by a line feed, blank lines apart. *)
Lemma splitlines_go_newline after_cr cur a b :
  (after_cr = true → cur = []) →
  filter (λ line, strip line ≠ []) (splitlines_go after_cr cur (a ++ 10%N :: b))
  = filter (λ line, strip line ≠ []) (splitlines_go after_cr cur a)
    ++ filter (λ line, strip line ≠ []) (splitlines b).
Proof.
  revert after_cr cur. induction a as [|c a IH]; intros after_cr cur Hinv.
  - simpl. destruct after_cr; simpl.
    + rewrite Hinv by done. done.
    + rewrite filter_cons. destruct cur as [|x cur].
      * rewrite decide_False; [done|]. intros H. by apply H.
      * destruct (decide (strip (x :: cur) ≠ [])).
        -- rewrite filter_cons, decide_True by done.
           by rewrite filter_nil.
        -- rewrite filter_cons, decide_False by done.
           by rewrite filter_nil.
  - simpl. destruct (after_cr && (c =? 10)%N) eqn:Hskip; [by apply IH|].
    destruct (is_linebreak c) eqn:Hc.
    + rewrite !filter_cons. rewrite IH by done.
      by destruct (decide (strip cur ≠ [])).
    + by apply IH.
Qed.

(** ** Grouping *)

Lemma tokenize_line_grouped grouped line :
  tokenize_line grouped line = grouped ++ tokenize_line [] line.
Proof.
  unfold tokenize_line. rewrite group_tokens_grouped.
  destruct (group_tokens [] [] (split line)) as [g b]. simpl.
  destruct b; simpl; [done|]. by rewrite <- app_assoc.
Qed.

Lemma tokenize_lines_concat grouped lines :
  foldl tokenize_line grouped lines
  = grouped ++ concat (tokenize_line [] <$> lines).
Proof.
  revert grouped. induction lines as [|l lines IH]; intros grouped; simpl.
  - by rewrite app_nil_r.
  - rewrite IH, tokenize_line_grouped. by rewrite <- app_assoc.
Qed.

(** Grouping keeps the tokens and their order. *)
Lemma group_tokens_concat grouped buffer tokens :
  concat (group_tokens grouped buffer tokens).1
  ++ (group_tokens grouped buffer tokens).2
  = concat grouped ++ buffer ++ tokens.
Proof.
  revert grouped buffer.
  induction tokens as [|token rest IH]; intros grouped buffer.
  - simpl. by rewrite app_nil_r.
  - cbn [group_tokens].
    destruct (is_suffix token).
    { rewrite IH, concat_app. simpl. by rewrite app_nil_r, <- !app_assoc. }
    destruct (bool_decide (token = PREFIX_KEYWORD)).
    { rewrite IH. destruct buffer; simpl; [done|].
      rewrite concat_app. simpl. by rewrite app_nil_r, <- !app_assoc. }
    destruct (next_is_suffix (head rest));
      [|rewrite IH; by rewrite <- !app_assoc].
    destruct (prefix_started buffer);
      [|rewrite IH; by rewrite <- !app_assoc].
    rewrite IH, concat_app. simpl. by rewrite app_nil_r, <- !app_assoc.
Qed.

Lemma tokenize_line_concat line :
  concat (tokenize_line [] line) = split line.
Proof.
  unfold tokenize_line.
  pose proof (group_tokens_concat [] [] (split line)) as H.
  destruct (group_tokens [] [] (split line)) as [g b]. simpl in H.
  rewrite <- H. destruct b; simpl; [by rewrite app_nil_r|].
  rewrite concat_app. simpl. by rewrite app_nil_r.
Qed.

(** The groups of a core text, read in order, are its words. *)
Lemma tokenize_core_concat core :
  concat (tokenize_core core) = split core.
Proof.
  unfold tokenize_core. rewrite tokenize_lines_concat, app_nil_l.
  rewrite <- start_lines_words.
  induction (start_lines core) as [|l lines IH]; [done|].
  rewrite !fmap_cons. cbn [concat].
  by rewrite concat_app, tokenize_line_concat, IH.
Qed.

Lemma tokenize_core_clean core :
  Forall (Forall clean_token) (tokenize_core core).
Proof.
  apply Forall_forall. intros g Hg. apply Forall_forall. intros t Ht.
  pose proof (split_clean core) as Hclean.
  rewrite <- tokenize_core_concat in Hclean.
  eapply Forall_forall in Hclean; [done|].
  apply list_elem_of_In, in_concat. exists g.
  split; by apply list_elem_of_In.
Qed.

(** ** The shape of the groups *)

Lemma buffer_shape_nil : buffer_shape [].
Proof. intros i t H. by rewrite lookup_nil in H. Qed.

Lemma buffer_shape_singleton t :
  t ∉ SUFFIX_KEYWORDS → buffer_shape [t].
Proof.
  intros Ht i x [-> <-]%list_lookup_singleton_Some. by split.
Qed.

Lemma buffer_shape_snoc b t :
  buffer_shape b → t ∉ SUFFIX_KEYWORDS → t ≠ PREFIX_KEYWORD →
  buffer_shape (b ++ [t]).
Proof.
  intros Hb Ht Hp i x [Hx|[_ Hx]]%lookup_app_Some; [by apply Hb|].
  apply list_lookup_singleton_Some in Hx as [_ <-]. by split.
Qed.

Lemma group_shape_close b t :
  buffer_shape b → t ∈ SUFFIX_KEYWORDS → group_shape (b ++ [t]).
Proof.
  intros Hb Ht. split; [by destruct b|].
  intros i x [Hx|[Hi Hx]]%lookup_app_Some.
  - destruct (Hb i x Hx) as [Hns Hp]. split; [done|exact Hp].
  - apply list_lookup_singleton_Some in Hx as [Hi0 <-]. split.
    + intros _. rewrite length_app. simpl. lia.
    + intros ->. exfalso. revert Ht. compute_done.
Qed.

Lemma group_shape_flush b :
  buffer_shape b → b ≠ [] → group_shape b.
Proof.
  intros Hb Hne. split; [done|]. intros i x Hx.
  destruct (Hb i x Hx) as [Hns Hp]. split; [done|exact Hp].
Qed.

Lemma flush_shape grouped b :
  Forall group_shape grouped → buffer_shape b →
  Forall group_shape (flush grouped b).
Proof.
  intros Hg Hb. destruct b as [|x b]; simpl; [done|].
  apply Forall_app. split; [done|].
  constructor; [|constructor]. by apply group_shape_flush.
Qed.

Lemma is_suffix_false t : is_suffix t = false → t ∉ SUFFIX_KEYWORDS.
Proof. unfold is_suffix. by intros H%bool_decide_eq_false. Qed.

Lemma is_suffix_true t : is_suffix t = true → t ∈ SUFFIX_KEYWORDS.
Proof. unfold is_suffix. by intros H%bool_decide_eq_true. Qed.

Lemma group_tokens_shape grouped buffer tokens :
  Forall group_shape grouped → buffer_shape buffer →
  Forall group_shape (group_tokens grouped buffer tokens).1
  ∧ buffer_shape (group_tokens grouped buffer tokens).2.
Proof.
  revert grouped buffer.
  induction tokens as [|token rest IH]; intros grouped buffer Hg Hb.
  - done.
  - cbn [group_tokens].
    destruct (is_suffix token) eqn:Hs.
    { apply IH; [|apply buffer_shape_nil].
      apply Forall_app. split; [done|]. constructor; [|constructor].
      by apply group_shape_close, is_suffix_true. }
    apply is_suffix_false in Hs.
    case_bool_decide as Hp.
    { apply IH; [by apply flush_shape|by apply buffer_shape_singleton]. }
    destruct (next_is_suffix (head rest));
      [|apply IH; [done|by apply buffer_shape_snoc]].
    destruct (prefix_started buffer) eqn:Hstarted;
      [|apply IH; [done|by apply buffer_shape_snoc]].
    apply IH; [|by apply buffer_shape_singleton].
    apply Forall_app. split; [done|]. constructor; [|constructor].
    apply group_shape_flush; [done|]. by destruct buffer.
Qed.

Lemma tokenize_line_shape grouped line :
  Forall group_shape grouped → Forall group_shape (tokenize_line grouped line).
Proof.
  intros Hg. unfold tokenize_line.
  pose proof (group_tokens_shape grouped [] (split line) Hg buffer_shape_nil)
    as [Hg' Hb'].
  destruct (group_tokens grouped [] (split line)) as [g b].
  by apply flush_shape.
Qed.

Lemma tokenize_core_shape core : Forall group_shape (tokenize_core core).
Proof.
  unfold tokenize_core.
  assert (Forall group_shape ([] : list (list str))) as Hinit by constructor.
  revert Hinit. generalize ([] : list (list str)).
  induction (start_lines core) as [|l lines IH]; intros grouped Hg; [done|].
  simpl. by apply IH, tokenize_line_shape.
Qed.

(** X3. The groups that [tokenize] returns, read in order, are exactly the
    white-space separated words of the core text: grouping loses, adds and
    reorders nothing. *)
Theorem tokenize_keeps_words (raw : str) (groups : list (list str)) :
  tokenize raw = inr groups →
  ∃ core, clean_code raw = inr core ∧ concat groups = split core.
Proof.
  unfold tokenize. destruct (clean_code raw) as [e|core]; [done|].
  intros [= <-]. exists core. split; [done|]. apply tokenize_core_concat.
Qed.

Lemma tokenize_keeps_words_witness :
  tokenize MoreExamples.program = inr MoreExamples.program_groups
  ∧ ∃ core, clean_code MoreExamples.program = inr core
            ∧ concat MoreExamples.program_groups = split core.
Proof.
  assert (tokenize MoreExamples.program = inr MoreExamples.program_groups)
    as H by (vm_compute; reflexivity).
  split; [exact H|].
  exact (tokenize_keeps_words _ _ H).
Defined.

(** X4. Every token of every group that [tokenize] returns is non-empty
    and holds no white space character. *)
Theorem tokenize_tokens_clean (raw : str) (groups : list (list str)) :
  tokenize raw = inr groups → Forall (Forall clean_token) groups.
Proof.
  unfold tokenize. destruct (clean_code raw) as [e|core]; [done|].
  intros [= <-]. apply tokenize_core_clean.
Qed.

Lemma tokenize_tokens_clean_witness :
  tokenize MoreExamples.program = inr MoreExamples.program_groups
  ∧ Forall (Forall clean_token) MoreExamples.program_groups.
Proof.
  assert (tokenize MoreExamples.program = inr MoreExamples.program_groups)
    as H by (vm_compute; reflexivity).
  split; [exact H|].
  exact (tokenize_tokens_clean _ _ H).
Defined.

(** X5. Every group that [tokenize] returns is non-empty, holds a suffix
    keyword only as its last token and the prefix keyword only as its
    first token. *)
Theorem tokenize_group_shape (raw : str) (groups : list (list str)) :
  tokenize raw = inr groups → Forall group_shape groups.
Proof.
  unfold tokenize. destruct (clean_code raw) as [e|core]; [done|].
  intros [= <-]. apply tokenize_core_shape.
Qed.

Lemma tokenize_group_shape_witness :
  tokenize MoreExamples.program = inr MoreExamples.program_groups
  ∧ Forall group_shape MoreExamples.program_groups.
Proof.
  assert (tokenize MoreExamples.program = inr MoreExamples.program_groups)
    as H by (vm_compute; reflexivity).
  split; [exact H|].
  exact (tokenize_group_shape _ _ H).
Defined.

(** X6. No command spans a line break: the groups of two core texts joined
    by a line feed are the groups of the first followed by the groups of
    the second. *)
Theorem tokenize_core_newline (a b : str) :
  tokenize_core (a ++ 10%N :: b) = tokenize_core a ++ tokenize_core b.
Proof.
  unfold tokenize_core. rewrite !tokenize_lines_concat, !app_nil_l.
  unfold start_lines, splitlines.
  rewrite splitlines_go_newline by done.
  by rewrite fmap_app, fmap_app, concat_app.
Qed.

End TokenizerMore.

(** * Further properties of the parser *)
Section ParserMore.

Import CKRLexer CKRParser.

Lemma parse_snoc groups g :
  parse (groups ++ [g]) = parse_group (parse groups) g.
Proof. unfold parse. by rewrite foldl_app. Qed.

Lemma parse_group_label acc g name :
  label_of g = Some name →
  parse_group acc g
  = (acc.1, <[name := Z.of_nat (length acc.1)]> acc.2).
Proof.
  destruct acc as [instructions labels]. unfold label_of, parse_group.
  destruct g as [|first g]; [done|].
  destruct (startswith LABEL_KEYWORD first); [|done]. by intros [= <-].
Qed.

Lemma parse_group_no_label acc g :
  label_of g = None →
  parse_group acc g
  = (acc.1 ++ (if emits g then [Instruction (join SPACE g) g] else []),
     acc.2).
Proof.
  destruct acc as [instructions labels]. unfold label_of, emits, parse_group.
  destruct g as [|first g]; [intros _; simpl; by rewrite app_nil_r|].
  by destruct (startswith LABEL_KEYWORD first).
Qed.

Lemma emits_label g name : label_of g = Some name → emits g = false.
Proof.
  unfold label_of, emits. destruct g as [|first g]; [done|].
  by destruct (startswith LABEL_KEYWORD first).
Qed.

(** The instructions are the groups that are neither empty nor label
    definitions, in their order. *)
Lemma parse_instructions groups :
  (parse groups).1
  = (λ g, Instruction (join SPACE g) g) <$> filter (λ g, emits g = true) groups.
Proof.
  induction groups as [|g groups IH] using rev_ind; [done|].
  rewrite parse_snoc, filter_app, fmap_app, <- IH.
  destruct (label_of g) as [name|] eqn:Hl.
  - rewrite (parse_group_label _ _ _ Hl). simpl.
    rewrite filter_cons, decide_False, filter_nil
      by (rewrite (emits_label _ _ Hl); done).
    by rewrite app_nil_r.
  - rewrite (parse_group_no_label _ _ Hl). simpl.
    rewrite filter_cons, filter_nil. by destruct (emits g).
Qed.

(** X7. The parser emits one instruction for each group that is neither
    empty nor a label definition, in the order of the groups; the
    instruction carries the tokens of the group and, as its text, the
    tokens joined by single spaces. *)
Theorem parse_emits_in_order (groups : list (list str)) :
  tokens <$> (parse groups).1 = filter (λ g, emits g = true) groups
  ∧ Forall (λ inst, line inst = join SPACE (tokens inst)
                    ∧ tokens inst ≠ []) (parse groups).1.
Proof.
  rewrite parse_instructions. split.
  - rewrite <- list_fmap_compose.
    induction (filter _ groups) as [|g gs IH]; [done|].
    simpl. by f_equal.
  - apply Forall_fmap, Forall_forall. intros g Hg%list_elem_of_filter.
    simpl. split; [done|]. destruct Hg as [Hg _]. by destruct g.
Qed.

(** X8. A label is bound to the number of instructions emitted before its
    definition, that is, to the index of the next instruction; of several
    definitions of one name the last one counts. *)
Theorem parse_label_last_wins (pre : list (list str)) (definition : list str)
        (post : list (list str)) (name : str) :
  label_of definition = Some name →
  (∀ g, g ∈ post → label_of g ≠ Some name) →
  (parse (pre ++ definition :: post)).2 !! name
  = Some (Z.of_nat (length (parse pre).1)).
Proof.
  intros Hdef. induction post as [|g post IH] using rev_ind; intros Hpost.
  - rewrite parse_snoc, (parse_group_label _ _ _ Hdef). simpl.
    apply lookup_insert_eq.
  - rewrite app_comm_cons, app_assoc, parse_snoc.
    assert (label_of g ≠ Some name) as Hg
      by (apply Hpost, elem_of_app; right; left).
    destruct (label_of g) as [other|] eqn:Hl.
    + rewrite (parse_group_label _ _ _ Hl). simpl.
      rewrite lookup_insert_ne by congruence.
      apply IH. intros g' Hg'. apply Hpost, elem_of_app. by left.
    + rewrite (parse_group_no_label _ _ Hl). simpl.
      apply IH. intros g' Hg'. apply Hpost, elem_of_app. by left.
Qed.

Lemma parse_label_last_wins_witness :
  (label_of MoreExamples.label_dot = Some Examples.dot
   ∧ ∀ g, g ∈ [[Examples.b; KW_ADD]] → label_of g ≠ Some Examples.dot)
  ∧ (parse ([MoreExamples.label_dot; [Examples.a; KW_ADD]]
            ++ MoreExamples.label_dot :: [[Examples.b; KW_ADD]])).2
    !! Examples.dot
    = Some 1%Z.
Proof.
  assert (label_of MoreExamples.label_dot = Some Examples.dot) as H1
    by (vm_compute; reflexivity).
  assert (∀ g, g ∈ [[Examples.b; KW_ADD]] → label_of g ≠ Some Examples.dot)
    as H2 by (intros g ->%list_elem_of_singleton; vm_compute; discriminate).
  split; [done|].
  exact (parse_label_last_wins [MoreExamples.label_dot; [Examples.a; KW_ADD]]
           MoreExamples.label_dot [[Examples.b; KW_ADD]] Examples.dot H1 H2).
Defined.

(** X9. A name that no group defines is not in the label table. *)
Theorem parse_label_absent (groups : list (list str)) (name : str) :
  (∀ g, g ∈ groups → label_of g ≠ Some name) →
  (parse groups).2 !! name = None.
Proof.
  induction groups as [|g groups IH] using rev_ind; intros Hgroups.
  - apply lookup_empty.
  - rewrite parse_snoc.
    assert (label_of g ≠ Some name) as Hg
      by (apply Hgroups, elem_of_app; right; left).
    assert ((parse groups).2 !! name = None) as Hrest.
    { apply IH. intros g' Hg'. apply Hgroups, elem_of_app. by left. }
    destruct (label_of g) as [other|] eqn:Hl.
    + rewrite (parse_group_label _ _ _ Hl). simpl.
      by rewrite lookup_insert_ne by congruence.
    + by rewrite (parse_group_no_label _ _ Hl).
Qed.

Lemma parse_label_absent_witness :
  (∀ g, g ∈ MoreExamples.program_groups → label_of g ≠ Some Examples.dot)
  ∧ (parse MoreExamples.program_groups).2 !! Examples.dot = None.
Proof.
  assert (∀ g, g ∈ MoreExamples.program_groups →
               label_of g ≠ Some Examples.dot) as H.
  { intros g Hg. unfold MoreExamples.program_groups in Hg.
    repeat (apply elem_of_cons in Hg as [-> | Hg]);
      [vm_compute; discriminate..|by apply elem_of_nil in Hg]. }
  split; [exact H|].
  exact (parse_label_absent MoreExamples.program_groups Examples.dot H).
Defined.

(** ** The text of an instruction *)

Lemma split_go_word acc cur s :
  (∀ c, c ∈ cur → isspace c = false) →
  split_go acc (cur ++ s) = split_go (acc ++ cur) s.
Proof.
  revert acc. induction cur as [|x cur IH]; intros acc Hcur; simpl.
  - by rewrite app_nil_r.
  - rewrite (Hcur x) by left. rewrite IH, <- app_assoc; [done|].
    intros c Hc. apply Hcur. by right.
Qed.

Lemma split_clean_token t : clean_token t → split t = [t].
Proof.
  intros [Hne Hclean]. unfold split.
  rewrite <- (app_nil_r t) at 1. rewrite split_go_word by done.
  simpl. by destruct t.
Qed.

(** Joining clean tokens by spaces and splitting again gives the tokens. *)
Lemma split_join tokens :
  Forall clean_token tokens → split (join SPACE tokens) = tokens.
Proof.
  induction 1 as [|t tokens Ht Htokens IH]; [done|].
  destruct tokens as [|t' tokens].
  - by apply split_clean_token.
  - change (join SPACE (t :: t' :: tokens))
      with (t ++ 32%N :: join SPACE (t' :: tokens)).
    unfold split. rewrite split_go_space by done.
    fold (split t). rewrite (split_clean_token t Ht), IH. done.
Qed.

(** X10. For a program that went through [tokenize] and [parse], the text
    of every instruction splits back into the tokens of the
    instruction. *)
Theorem instruction_line_round_trip (raw : str) (groups : list (list str)) :
  tokenize raw = inr groups →
  Forall (λ inst, split (line inst) = tokens inst) (parse groups).1.
Proof.
  unfold tokenize. destruct (clean_code raw) as [e|core]; [done|].
  intros [= <-]. rewrite parse_instructions.
  apply Forall_fmap, Forall_forall. intros g [_ Hg]%list_elem_of_filter.
  simpl. apply split_join.
  pose proof (tokenize_core_clean core) as Hclean.
  by eapply Forall_forall in Hclean.
Qed.

Lemma instruction_line_round_trip_witness :
  tokenize MoreExamples.program = inr MoreExamples.program_groups
  ∧ Forall (λ inst, split (line inst) = tokens inst)
           (parse MoreExamples.program_groups).1.
Proof.
  assert (tokenize MoreExamples.program = inr MoreExamples.program_groups)
    as H by (vm_compute; reflexivity).
  split; [exact H|].
  exact (instruction_line_round_trip _ _ H).
Defined.

End ParserMore.

(** * Further properties of the evaluator *)
Section EvaluatorMore.

Import CKRLexer CKRParser CKREvaluator.

Implicit Types (m : machine) (vars labels : gmap str Z) (name cmd : str).

(** ** The store *)

(** X11. A successful [set_val] is read back by [get_val], and changes the
    value of no other name. *)
Theorem set_val_get_val vars name (value : Z) (vars' : gmap str Z) :
  set_val vars name value = inr vars' →
  get_val vars' name = inr value
  ∧ ∀ other, other ≠ name → get_val vars' other = get_val vars other.
Proof.
  unfold set_val. destruct (is_constant name) eqn:Hc; [done|].
  intros [= <-]. apply is_constant_false in Hc. unfold get_val. split.
  - by rewrite Hc, lookup_insert_eq.
  - intros other Hne. by rewrite lookup_insert_ne.
Qed.

Lemma set_val_get_val_witness :
  set_val (Examples.store_a 3) Examples.b 7
  = inr (Examples.store_ab 3 7)
  ∧ get_val (Examples.store_ab 3 7) Examples.b = inr 7%Z
  ∧ ∀ other, other ≠ Examples.b →
             get_val (Examples.store_ab 3 7) other
             = get_val (Examples.store_a 3) other.
Proof.
  assert (set_val (Examples.store_a 3) Examples.b 7
          = inr (Examples.store_ab 3 7)) as H by (vm_compute; reflexivity).
  split; [exact H|].
  exact (set_val_get_val _ _ _ _ H).
Defined.

Lemma check_mutable_raises name e :
  check_mutable name = Some e →
  e = CKRRuntimeError (ConstantMutation name).
Proof.
  unfold check_mutable. destruct (is_constant name); [|done].
  by intros [= <-].
Qed.

Lemma check_mutable_constant name :
  is_Some (CONSTANTS !! name) →
  check_mutable name = Some (CKRRuntimeError (ConstantMutation name)).
Proof.
  intros Hc. unfold check_mutable, is_constant.
  by rewrite bool_decide_eq_true_2.
Qed.

Lemma mutable_not_constant s c :
  check_mutable s = None → is_Some (CONSTANTS !! c) → s ≠ c.
Proof.
  intros Hs%check_mutable_None [v Hc] ->. by rewrite Hs in Hc.
Qed.

Lemma machine_of_advance r :
  variables (machine_of (advance r)) = variables (machine_of r)
  ∧ output (machine_of (advance r)) = output (machine_of r).
Proof. by destruct r. Qed.

Lemma declare_loop_constants subjects m c :
  is_Some (CONSTANTS !! c) →
  variables (machine_of (declare_loop subjects m)) !! c = variables m !! c.
Proof.
  intros Hc. revert m. induction subjects as [|s subjects IH]; intros m.
  - done.
  - simpl. destruct (check_mutable s) as [e|] eqn:Hs; [done|].
    rewrite IH. simpl. apply lookup_insert_ne.
    by eapply mutable_not_constant.
Qed.

Lemma negate_loop_constants subjects m c :
  is_Some (CONSTANTS !! c) →
  variables (machine_of (negate_loop subjects m)) !! c = variables m !! c.
Proof.
  intros Hc. revert m. induction subjects as [|s subjects IH]; intros m.
  - done.
  - simpl. destruct (check_mutable s) as [e|] eqn:Hs; [done|].
    destruct (defaultdict_get (variables m) s) as [v vars] eqn:Hget.
    pose proof (defaultdict_get_insert (variables m) s Z.opp) as Hins.
    rewrite Hget in Hins. simpl in Hins. rewrite IH. simpl. rewrite Hins.
    apply lookup_insert_ne. by eapply mutable_not_constant.
Qed.

Lemma print_loop_variables subjects m :
  variables (machine_of (print_loop subjects m)) = variables m.
Proof.
  revert m. induction subjects as [|s subjects IH]; intros m; [done|].
  simpl. destruct (get_val (variables m) s) as [e|v]; [done|].
  destruct (print_chr v) as [e|c]; [done|]. by rewrite IH.
Qed.

Lemma arith_constants unit fold subjects m c :
  is_Some (CONSTANTS !! c) →
  variables (machine_of (arith unit fold subjects m)) !! c
  = variables m !! c.
Proof.
  intros Hc. unfold arith. destruct subjects as [|target others]; [done|].
  destruct (check_mutable target) as [e|] eqn:Ht; [done|].
  assert (target ≠ c) as Hne by (by eapply mutable_not_constant).
  destruct others as [|s others].
  - destruct (defaultdict_get (variables m) target) as [v vars] eqn:Hget.
    pose proof (defaultdict_get_insert (variables m) target unit) as Hins.
    rewrite Hget in Hins. simpl in Hins. simpl. rewrite Hins.
    by apply lookup_insert_ne.
  - destruct (get_vals (variables m) (target :: s :: others)); [done|].
    simpl. by apply lookup_insert_ne.
Qed.

(** X12. No instruction writes a constant name into the store: whether
    the instruction completes or raises, the store entry of each of the
    three constant names is what it was. *)
Theorem constants_never_written labels (inst : instruction) m name :
  is_Some (CONSTANTS !! name) →
  variables (machine_of (exec labels inst m)) !! name
  = variables m !! name.
Proof.
  intros Hc. unfold exec.
  destruct (command (tokens inst)) as [cmd|]; [|done].
  destruct (contains KW_JUMP cmd).
  - destruct (jump_condition _ _) as [e|[]]; [done| |done].
    by destruct (labels !! remove_all KW_JUMP cmd).
  - rewrite (proj1 (machine_of_advance _)).
    repeat case_bool_decide.
    + by apply declare_loop_constants.
    + by apply arith_constants.
    + by apply arith_constants.
    + by apply arith_constants.
    + by apply negate_loop_constants.
    + by rewrite print_loop_variables.
    + done.
Qed.

Lemma constants_never_written_witness :
  is_Some (CONSTANTS !! NAME_ZERO)
  ∧ variables
      (machine_of
         (exec ∅ (Examples.inst_of
                    [PREFIX_KEYWORD; Examples.a_comma; NAME_ZERO])
               (Machine ∅ 0 []))) !! NAME_ZERO
    = (∅ : gmap str Z) !! NAME_ZERO.
Proof.
  assert (is_Some (CONSTANTS !! NAME_ZERO)) as H by (by eexists).
  split; [exact H|].
  exact (constants_never_written ∅
           (Examples.inst_of [PREFIX_KEYWORD; Examples.a_comma; NAME_ZERO])
           (Machine ∅ 0 []) NAME_ZERO H).
Defined.

(** ** Errors *)

(** X13. A declare, add, subtract, multiply or negate instruction whose
    first subject is a constant name raises the constant-mutation error
    for that name and leaves the machine as it was. *)
Theorem constant_first_subject labels (inst : instruction) m cmd
        (target : str) (others : list str) :
  command (tokens inst) = Some cmd →
  cmd ∈ [PREFIX_KEYWORD; KW_ADD; KW_SUB; KW_MUL; KW_NEG] →
  operands cmd (tokens inst) = target :: others →
  is_Some (CONSTANTS !! target) →
  exec labels inst m
  = Raise (CKRRuntimeError (ConstantMutation target)) m.
Proof.
  intros Hcmd Hin Hops Hc. apply check_mutable_constant in Hc.
  repeat (apply elem_of_cons in Hin as [-> | Hin]).
  - rewrite (exec_declare _ _ _ Hcmd), Hops. simpl. by rewrite Hc.
  - rewrite (exec_add _ _ _ Hcmd), Hops. unfold arith. by rewrite Hc.
  - rewrite (exec_sub _ _ _ Hcmd), Hops. unfold arith. by rewrite Hc.
  - rewrite (exec_mul _ _ _ Hcmd), Hops. unfold arith. by rewrite Hc.
  - rewrite (exec_negate _ _ _ Hcmd), Hops. simpl. by rewrite Hc.
  - by apply elem_of_nil in Hin.
Qed.

Lemma constant_first_subject_witness :
  (command (tokens (Examples.inst_of [NAME_PLUS; KW_MUL])) = Some KW_MUL
   ∧ KW_MUL ∈ [PREFIX_KEYWORD; KW_ADD; KW_SUB; KW_MUL; KW_NEG]
   ∧ operands KW_MUL [NAME_PLUS; KW_MUL] = [NAME_PLUS]
   ∧ is_Some (CONSTANTS !! NAME_PLUS))
  ∧ exec ∅ (Examples.inst_of [NAME_PLUS; KW_MUL]) (Machine ∅ 0 [])
    = Raise (CKRRuntimeError (ConstantMutation NAME_PLUS)) (Machine ∅ 0 []).
Proof.
  assert (KW_MUL ∈ [PREFIX_KEYWORD; KW_ADD; KW_SUB; KW_MUL; KW_NEG]) as H2
    by compute_done.
  assert (operands KW_MUL [NAME_PLUS; KW_MUL] = [NAME_PLUS]) as H3
    by (vm_compute; reflexivity).
  assert (is_Some (CONSTANTS !! NAME_PLUS)) as H4 by (by eexists).
  split; [done|].
  exact (constant_first_subject ∅ (Examples.inst_of [NAME_PLUS; KW_MUL])
           (Machine ∅ 0 []) KW_MUL NAME_PLUS [] eq_refl H2 H3 H4).
Defined.

(** X14. An instruction that does not begin with the prefix keyword and
    whose last token neither holds the jump keyword nor is one of the
    command keywords raises the unknown-command error for that token and
    leaves the machine as it was. *)
Theorem unknown_command labels (inst : instruction) m (first cmd : str) :
  head (tokens inst) = Some first →
  first ≠ PREFIX_KEYWORD →
  last (tokens inst) = Some cmd →
  contains KW_JUMP cmd = false →
  cmd ∉ [PREFIX_KEYWORD; KW_ADD; KW_SUB; KW_MUL; KW_NEG; KW_PRINT] →
  exec labels inst m = Raise (CKRRuntimeError (UnknownCommand cmd)) m.
Proof.
  intros Hfirst Hne Hlast Hjump Hcmd. apply exec_unknown; [|done..].
  unfold command. destruct (tokens inst) as [|t ts]; [done|].
  injection Hfirst as ->. by rewrite bool_decide_eq_false_2.
Qed.

Lemma unknown_command_witness :
  (head (tokens (Examples.inst_of [Examples.a; Examples.b]))
   = Some Examples.a
   ∧ Examples.a ≠ PREFIX_KEYWORD
   ∧ last (tokens (Examples.inst_of [Examples.a; Examples.b]))
     = Some Examples.b
   ∧ contains KW_JUMP Examples.b = false
   ∧ (Examples.b
      ∉ [PREFIX_KEYWORD; KW_ADD; KW_SUB; KW_MUL; KW_NEG; KW_PRINT]))
  ∧ exec ∅ (Examples.inst_of [Examples.a; Examples.b]) (Machine ∅ 0 [])
    = Raise (CKRRuntimeError (UnknownCommand Examples.b)) (Machine ∅ 0 []).
Proof.
  assert (Examples.a ≠ PREFIX_KEYWORD) as H2 by compute_done.
  assert (Examples.b
          ∉ [PREFIX_KEYWORD; KW_ADD; KW_SUB; KW_MUL; KW_NEG; KW_PRINT])
    as H5 by compute_done.
  split; [done|].
  exact (unknown_command ∅ (Examples.inst_of [Examples.a; Examples.b])
           (Machine ∅ 0 []) Examples.a Examples.b
           eq_refl H2 eq_refl eq_refl H5).
Defined.

(** X15. A jump whose second-to-last token holds no comparator, or that
    has a single token, is unconditional: it reads no variable and goes
    to the index of its label, or raises the missing-label error. *)
Theorem unconditional_jump labels (inst : instruction) m cmd :
  command (tokens inst) = Some cmd →
  contains KW_JUMP cmd = true →
  (∀ op, index (tokens inst) (-2) = Some op →
         contains KW_EQ op || contains KW_GT op = false) →
  exec labels inst m
  = match labels !! remove_all KW_JUMP cmd with
    | Some target => Next (with_pc m target)
    | None => Raise (CKRRuntimeError (MissingLabel (remove_all KW_JUMP cmd))) m
    end.
Proof.
  intros Hcmd Hjump Hop. rewrite (exec_jump _ _ _ _ Hcmd Hjump).
  unfold jump_condition.
  destruct (index (tokens inst) (-2)) as [op|]; [|done].
  by rewrite (Hop op eq_refl).
Qed.

Lemma unconditional_jump_witness :
  (command (tokens (Examples.inst_of [Examples.x; Examples.jump_to_dots]))
   = Some Examples.jump_to_dots
   ∧ contains KW_JUMP Examples.jump_to_dots = true
   ∧ ∀ op, index [Examples.x; Examples.jump_to_dots] (-2) = Some op →
           contains KW_EQ op || contains KW_GT op = false)
  ∧ exec {[ Examples.dots := 5%Z ]}
         (Examples.inst_of [Examples.x; Examples.jump_to_dots])
         (Machine ∅ 0 [])
    = Next (Machine ∅ 5 []).
Proof.
  assert (∀ op, index [Examples.x; Examples.jump_to_dots] (-2) = Some op →
                contains KW_EQ op || contains KW_GT op = false) as H3
    by (intros op [= <-]; reflexivity).
  split; [done|].
  rewrite (unconditional_jump {[ Examples.dots := 5%Z ]}
             (Examples.inst_of [Examples.x; Examples.jump_to_dots])
             (Machine ∅ 0 []) Examples.jump_to_dots eq_refl eq_refl H3).
  vm_compute. reflexivity.
Defined.

(** ** Output *)

Lemma print_loop_output subjects m :
  output m `prefix_of` output (machine_of (print_loop subjects m)).
Proof.
  revert m. induction subjects as [|s subjects IH]; intros m; [done|].
  simpl. destruct (get_val (variables m) s) as [e|v]; [done|].
  destruct (print_chr v) as [e|c]; [done|].
  etrans; [|apply IH]. simpl. by apply prefix_app_r.
Qed.

Lemma declare_loop_output subjects m :
  output (machine_of (declare_loop subjects m)) = output m.
Proof.
  destruct (declare_loop subjects m) as [m'|e m'] eqn:Hloop; simpl.
  - by apply (declare_loop_frame subjects); left.
  - by apply (declare_loop_frame subjects); right; eexists.
Qed.

Lemma negate_loop_output subjects m :
  output (machine_of (negate_loop subjects m)) = output m.
Proof.
  destruct (negate_loop subjects m) as [m'|e m'] eqn:Hloop; simpl.
  - by apply (negate_loop_frame subjects); left.
  - by apply (negate_loop_frame subjects); right; eexists.
Qed.

Lemma arith_output unit fold subjects m :
  output (machine_of (arith unit fold subjects m)) = output m.
Proof.
  unfold arith. destruct subjects as [|target others]; [done|].
  destruct (check_mutable target); [done|].
  destruct others as [|s others].
  - by destruct (defaultdict_get (variables m) target).
  - by destruct (get_vals (variables m) (target :: s :: others)).
Qed.

(** One instruction only ever appends to the output. *)
Lemma exec_output labels inst m :
  output m `prefix_of` output (machine_of (exec labels inst m)).
Proof.
  unfold exec. destruct (command (tokens inst)) as [cmd|]; [|done].
  destruct (contains KW_JUMP cmd).
  - destruct (jump_condition _ _) as [e|[]]; [done| |done].
    by destruct (labels !! remove_all KW_JUMP cmd).
  - rewrite (proj2 (machine_of_advance _)).
    repeat case_bool_decide.
    + by rewrite declare_loop_output.
    + by rewrite arith_output.
    + by rewrite arith_output.
    + by rewrite arith_output.
    + by rewrite negate_loop_output.
    + apply print_loop_output.
    + done.
Qed.

(** X16. Output is never taken back: whatever a run does, and whether it
    ends or raises, the output before the run is a prefix of the output
    after it. *)
Theorem run_output_grows (fuel : nat) (instructions : list instruction)
        labels m (r : result) :
  run_loop fuel instructions labels m = Some r →
  output m `prefix_of` output (machine_of r).
Proof.
  revert m. induction fuel as [|fuel IH]; intros m; simpl.
  - destruct (step instructions labels m) as [[m1|e m1]|] eqn:Hstep;
      [done| |by intros [= <-]].
    intros [= <-]. unfold step in Hstep. case_bool_decide; [|done].
    destruct (index instructions (pc m)) as [inst|].
    + injection Hstep as Hexec.
      pose proof (exec_output labels inst m) as Hout.
      by rewrite Hexec in Hout.
    + by injection Hstep as _ <-.
  - destruct (step instructions labels m) as [[m1|e m1]|] eqn:Hstep;
      [| |by intros [= <-]];
      unfold step in Hstep; (case_bool_decide; [|done]);
      destruct (index instructions (pc m)) as [inst|]; try done.
    + injection Hstep as Hexec.
      pose proof (exec_output labels inst m) as Hout.
      rewrite Hexec in Hout. intros Hrun%IH. by etrans.
    + injection Hstep as Hexec. intros [= <-].
      pose proof (exec_output labels inst m) as Hout.
      by rewrite Hexec in Hout.
    + injection Hstep as _ <-. by intros [= <-].
Qed.

Lemma run_output_grows_witness :
  run_loop 5 (parse MoreExamples.program_groups).1
           (parse MoreExamples.program_groups).2 (Machine ∅ 0 [72%N])
  = Some (Next (Machine (<[Examples.a := 1%Z]> (Examples.store_ab 0 0))
                        3 [72%N; 0%N]))
  ∧ [72%N] `prefix_of` [72%N; 0%N].
Proof.
  assert (run_loop 5 (parse MoreExamples.program_groups).1
                   (parse MoreExamples.program_groups).2
                   (Machine ∅ 0 [72%N])
          = Some (Next (Machine (<[Examples.a := 1%Z]>
                                   (Examples.store_ab 0 0))
                                3 [72%N; 0%N]))) as H
    by (vm_compute; reflexivity).
  split; [exact H|].
  exact (run_output_grows _ _ _ _ _ H).
Defined.

(** ** Termination *)

(** Without a jump, an instruction that completes advances by one. *)
Lemma exec_advances labels inst m m' cmd :
  command (tokens inst) = Some cmd →
  contains KW_JUMP cmd = false →
  exec labels inst m = Next m' → pc m' = (pc m + 1)%Z.
Proof.
  intros Hcmd Hjump Hexec.
  destruct (exec_next_pc _ _ _ _ Hexec) as [Hpc|[name Hname]]; [done|].
  unfold exec in Hexec. rewrite Hcmd, Hjump in Hexec.
  repeat case_bool_decide;
    match type of Hexec with
    | advance ?r = _ => destruct r as [m1|e1 m1] eqn:Hr; [|done]
    end;
    injection Hexec as <-; simpl; f_equal.
  - by apply (declare_loop_frame (operands cmd (tokens inst))); eauto.
  - by eapply arith_pc.
  - by eapply arith_pc.
  - by eapply arith_pc.
  - by apply (negate_loop_frame (operands cmd (tokens inst))); eauto.
  - by apply (print_loop_frame (operands cmd (tokens inst))); eauto.
  - done.
Qed.

Lemma run_loop_jump_free (instructions : list instruction) labels :
  jump_free instructions →
  ∀ fuel m,
    (0 ≤ pc m)%Z →
    (Z.of_nat (length instructions) - pc m ≤ Z.of_nat fuel)%Z →
    ∃ r, run_loop fuel instructions labels m = Some r.
Proof.
  intros Hfree fuel. induction fuel as [|fuel IH]; intros m Hpos Hfuel.
  - simpl. unfold step. rewrite bool_decide_eq_false_2 by lia. by eexists.
  - simpl. unfold step. case_bool_decide as Hlt; [|by eexists].
    destruct (index_in_range instructions (pc m)) as (inst & Hl & ->);
      [lia|].
    destruct (exec labels inst m) as [m'|e m'] eqn:Hexec; [|by eexists].
    destruct (command (tokens inst)) as [cmd|] eqn:Hcmd.
    + assert (pc m' = (pc m + 1)%Z) as Hpc.
      { eapply exec_advances; [done| |done].
        eapply Hfree; [|done]. by eapply list_elem_of_lookup_2. }
      apply IH; lia.
    + unfold exec in Hexec. by rewrite Hcmd in Hexec.
Qed.

(** X17. A program without jump instructions always ends: [run] needs no
    more iterations than there are instructions. *)
Theorem jump_free_run_ends (instructions : list instruction) labels m :
  jump_free instructions →
  ∃ r, run (length instructions) instructions labels m = Some r.
Proof.
  intros Hfree. unfold run.
  apply run_loop_jump_free; [done|simpl; lia|simpl; lia].
Qed.

Lemma jump_free_run_ends_witness :
  jump_free (parse MoreExamples.program_groups).1
  ∧ ∃ r, run (length (parse MoreExamples.program_groups).1)
             (parse MoreExamples.program_groups).1 ∅ (Machine ∅ 0 [])
         = Some r.
Proof.
  assert (jump_free (parse MoreExamples.program_groups).1) as H.
  { intros inst cmd Hin Hcmd.
    assert ((parse MoreExamples.program_groups).1
            = Examples.inst_of <$> MoreExamples.program_groups) as Heq
      by (vm_compute; reflexivity).
    rewrite Heq in Hin. unfold MoreExamples.program_groups in Hin.
    rewrite !fmap_cons in Hin.
    repeat (apply elem_of_cons in Hin as [-> | Hin]);
      [injection Hcmd as <-; reflexivity..|by apply elem_of_nil in Hin]. }
  split; [exact H|].
  exact (jump_free_run_ends _ ∅ (Machine ∅ 0 []) H).
Defined.

(** ** Negate and declare *)

Lemma stored_insert vars s v name :
  stored (<[s := v]> vars) name
  = if decide (s = name) then v else stored vars name.
Proof.
  unfold stored. destruct (decide (s = name)) as [->|Hne].
  - by rewrite lookup_insert_eq.
  - by rewrite lookup_insert_ne.
Qed.

(** A negate whose subjects are all mutable completes, and flips the
    sign of each name once for every time the name is listed. *)
Lemma negate_loop_stored subjects m :
  (∀ s, s ∈ subjects → CONSTANTS !! s = None) →
  ∃ m', negate_loop subjects m = Next m'
        ∧ ∀ name,
            stored (variables m') name
            = Nat.iter (length (filter (λ s, s = name) subjects)) Z.opp
                       (stored (variables m) name).
Proof.
  revert m. induction subjects as [|s subjects IH]; intros m Hmut.
  - by exists m.
  - simpl. rewrite (proj2 (check_mutable_None s)) by (apply Hmut; left).
    destruct (defaultdict_get (variables m) s) as [v vars] eqn:Hget.
    pose proof (defaultdict_get_insert (variables m) s Z.opp) as Hins.
    rewrite Hget in Hins. simpl in Hins. rewrite Hins.
    destruct (IH (Machine (<[s := (- stored (variables m) s)%Z]>
                             (variables m)) (pc m) (output m)))
      as (m' & Hloop & Hstored).
    { intros s' Hs'. apply Hmut. by right. }
    exists m'. split; [done|]. intros name. rewrite Hstored. simpl.
    rewrite stored_insert, filter_cons.
    destruct (decide (s = name)) as [->|Hne]; [|done].
    cbn [length]. by rewrite Nat.iter_succ_r.
Qed.

Lemma iter_opp_twice (k : nat) (v : Z) :
  Nat.iter k Z.opp (Nat.iter k Z.opp v) = v.
Proof.
  induction k as [|k IH]; [done|].
  rewrite Nat.iter_succ_r. simpl. by rewrite Z.opp_involutive.
Qed.

(** X18. Negating twice changes no value: when all subjects of a negate
    instruction are mutable, running the instruction two times gives
    every name the value it had (a name that was not in the store is then
    in it, with 0). *)
Theorem negate_twice labels (inst : instruction) m :
  command (tokens inst) = Some KW_NEG →
  (∀ s, s ∈ operands KW_NEG (tokens inst) → CONSTANTS !! s = None) →
  ∃ m1 m2,
    exec labels inst m = Next m1
    ∧ exec labels inst m1 = Next m2
    ∧ ∀ name, stored (variables m2) name = stored (variables m) name.
Proof.
  intros Hcmd Hmut.
  destruct (negate_loop_stored _ m Hmut) as (m1 & Hloop1 & Hstored1).
  destruct (negate_loop_stored _ (with_pc m1 (pc m1 + 1)) Hmut)
    as (m2 & Hloop2 & Hstored2).
  exists (with_pc m1 (pc m1 + 1)), (with_pc m2 (pc m2 + 1)).
  rewrite !(exec_negate _ _ _ Hcmd), Hloop1, Hloop2.
  split; [done|]. split; [done|].
  intros name. simpl. rewrite Hstored2. simpl. rewrite Hstored1.
  apply iter_opp_twice.
Qed.

Lemma negate_twice_witness :
  (command (tokens (Examples.inst_of [Examples.a_comma; Examples.x; KW_NEG]))
   = Some KW_NEG
   ∧ ∀ s, s ∈ operands KW_NEG [Examples.a_comma; Examples.x; KW_NEG] →
          CONSTANTS !! s = None)
  ∧ ∃ m1 m2,
      exec ∅ (Examples.inst_of [Examples.a_comma; Examples.x; KW_NEG])
           (Machine (Examples.store_a 5) 0 []) = Next m1
      ∧ exec ∅ (Examples.inst_of [Examples.a_comma; Examples.x; KW_NEG]) m1
        = Next m2
      ∧ ∀ name, stored (variables m2) name
                = stored (Examples.store_a 5) name.
Proof.
  assert (∀ s, s ∈ operands KW_NEG [Examples.a_comma; Examples.x; KW_NEG] →
               CONSTANTS !! s = None) as H2.
  { intros s Hs.
    assert (operands KW_NEG [Examples.a_comma; Examples.x; KW_NEG]
            = [Examples.a; Examples.x]) as Heq by (vm_compute; reflexivity).
    rewrite Heq in Hs.
    repeat (apply elem_of_cons in Hs as [-> | Hs]);
      [vm_compute; reflexivity..|by apply elem_of_nil in Hs]. }
  split; [done|].
  exact (negate_twice ∅
           (Examples.inst_of [Examples.a_comma; Examples.x; KW_NEG])
           (Machine (Examples.store_a 5) 0 []) eq_refl H2).
Defined.

Lemma declare_loop_store subjects m :
  (∀ s, s ∈ subjects → CONSTANTS !! s = None) →
  ∃ vars',
    declare_loop subjects m = Next (Machine vars' (pc m) (output m))
    ∧ (∀ name, name ∈ subjects → vars' !! name = Some 0%Z)
    ∧ (∀ name, name ∉ subjects → vars' !! name = variables m !! name).
Proof.
  revert m. induction subjects as [|s subjects IH]; intros m Hmut.
  - exists (variables m). split; [by destruct m|]. split; [|done].
    intros name Hin. by apply elem_of_nil in Hin.
  - simpl. rewrite (proj2 (check_mutable_None s)) by (apply Hmut; left).
    destruct (IH (Machine (<[s := 0%Z]> (variables m)) (pc m) (output m)))
      as (vars' & Hloop & Hin & Hout).
    { intros s' Hs'. apply Hmut. by right. }
    exists vars'. split; [done|]. split.
    + intros name Hname.
      destruct (decide (name ∈ subjects)) as [Hs|Hs]; [by apply Hin|].
      apply elem_of_cons in Hname as [-> | Hname]; [|done].
      rewrite (Hout _ Hs). simpl. apply lookup_insert_eq.
    + intros name [Hne Hname]%not_elem_of_cons.
      rewrite (Hout _ Hname). simpl. by apply lookup_insert_ne.
Qed.

(** X19. A declare whose subjects are all mutable sets every subject to
    0, whatever its value was, changes no other name and no output, and
    goes on with the next instruction. *)
Theorem declare_resets labels (inst : instruction) m :
  command (tokens inst) = Some PREFIX_KEYWORD →
  (∀ s, s ∈ operands PREFIX_KEYWORD (tokens inst) → CONSTANTS !! s = None) →
  ∃ vars',
    exec labels inst m = Next (Machine vars' (pc m + 1) (output m))
    ∧ (∀ name, name ∈ operands PREFIX_KEYWORD (tokens inst) →
               vars' !! name = Some 0%Z)
    ∧ (∀ name, name ∉ operands PREFIX_KEYWORD (tokens inst) →
               vars' !! name = variables m !! name).
Proof.
  intros Hcmd Hmut.
  destruct (declare_loop_store _ m Hmut) as (vars' & Hloop & Hin & Hout).
  exists vars'. rewrite (exec_declare _ _ _ Hcmd), Hloop. done.
Qed.

Lemma declare_resets_witness :
  (command (tokens (Examples.inst_of [PREFIX_KEYWORD; Examples.a]))
   = Some PREFIX_KEYWORD
   ∧ ∀ s, s ∈ operands PREFIX_KEYWORD [PREFIX_KEYWORD; Examples.a] →
          CONSTANTS !! s = None)
  ∧ ∃ vars',
      exec ∅ (Examples.inst_of [PREFIX_KEYWORD; Examples.a])
           (Machine (Examples.store_ab 5 6) 0 [])
      = Next (Machine vars' 1 [])
      ∧ (∀ name, name ∈ operands PREFIX_KEYWORD [PREFIX_KEYWORD; Examples.a] →
                 vars' !! name = Some 0%Z)
      ∧ (∀ name, name ∉ operands PREFIX_KEYWORD [PREFIX_KEYWORD; Examples.a] →
                 vars' !! name = Examples.store_ab 5 6 !! name).
Proof.
  assert (∀ s, s ∈ operands PREFIX_KEYWORD [PREFIX_KEYWORD; Examples.a] →
               CONSTANTS !! s = None) as H2.
  { intros s Hs.
    assert (operands PREFIX_KEYWORD [PREFIX_KEYWORD; Examples.a]
            = [Examples.a]) as Heq by (vm_compute; reflexivity).
    rewrite Heq in Hs. apply list_elem_of_singleton in Hs as ->.
    vm_compute. reflexivity. }
  split; [done|].
  exact (declare_resets ∅ (Examples.inst_of [PREFIX_KEYWORD; Examples.a])
           (Machine (Examples.store_ab 5 6) 0 []) eq_refl H2).
Defined.

(** ** Subjects *)

Lemma lstrip_head s c : head (lstrip s) = Some c → isspace c = false.
Proof.
  induction s as [|x s IH]; simpl; [done|].
  destruct (isspace x) eqn:Hx; [done|]. simpl. by intros [= <-].
Qed.

Lemma last_rev (l : str) : last (rev l) = head l.
Proof. destruct l as [|x l]; [done|]. simpl. apply last_snoc. Qed.

Lemma strip_trimmed s : trimmed (strip s).
Proof.
  unfold strip. split; intros c Hc.
  - destruct (rstrip_decomp (lstrip s)) as (sp & Hs & _).
    apply (lstrip_head s). rewrite Hs.
    by destruct (rstrip (lstrip s)).
  - unfold rstrip in Hc. rewrite last_rev in Hc. by eapply lstrip_head.
Qed.

Lemma lstrip_subset s c : c ∈ lstrip s → c ∈ s.
Proof.
  induction s as [|x s IH]; simpl; [done|].
  destruct (isspace x); [|done]. intros Hc%IH. by right.
Qed.

Lemma strip_subset s c : c ∈ strip s → c ∈ s.
Proof.
  unfold strip, rstrip.
  intros Hc%list_elem_of_In%in_rev%list_elem_of_In%lstrip_subset.
  by apply lstrip_subset, list_elem_of_In, in_rev, list_elem_of_In.
Qed.

Lemma split_on_go_pieces sep cur s :
  sep ∉ cur → Forall (λ p, sep ∉ p) (split_on_go sep cur s).
Proof.
  revert cur. induction s as [|c s IH]; intros cur Hcur; simpl.
  - by constructor.
  - destruct (N.eqb_spec c sep) as [->|Hne].
    + constructor; [done|]. apply IH. apply not_elem_of_nil.
    + apply IH. intros [H|H%list_elem_of_singleton]%elem_of_app; [done|].
      by subst.
Qed.

(** X20. The subjects that [parse_subjects] returns are non-empty, hold no
    comma and neither begin nor end with white space. *)
Theorem parse_subjects_shape (subject_chunk : str) :
  Forall (λ s, s ≠ [] ∧ (COMMA ∉ s) ∧ trimmed s)
         (parse_subjects subject_chunk).
Proof.
  unfold parse_subjects. destruct subject_chunk as [|c chunk]; [done|].
  apply Forall_forall. intros s [Hne Hs]%list_elem_of_filter.
  apply list_elem_of_fmap in Hs as (piece & -> & Hpiece).
  split; [done|]. split; [|apply strip_trimmed].
  intros Hcomma%strip_subset.
  pose proof (split_on_go_pieces COMMA [] (c :: chunk) (not_elem_of_nil _))
    as Hpieces.
  by eapply Forall_forall in Hpieces.
Qed.

(** ** The errors of a run *)

Lemma command_nonempty (tokens : list str) :
  tokens ≠ [] → is_Some (command tokens).
Proof.
  unfold command. destruct tokens as [|first rest]; [done|]. intros _.
  case_bool_decide; [by eexists|].
  destruct (last (first :: rest)) eqn:Hlast; [by eexists|].
  by apply last_None in Hlast.
Qed.

Lemma declare_loop_raises subjects m e m' :
  declare_loop subjects m = Raise e m' → ∃ cause, e = CKRRuntimeError cause.
Proof.
  intros (_ & failing & _ & _ & _ & Hfail)%declare_loop_raise.
  simpl in Hfail. destruct (check_mutable failing) as [e'|] eqn:Hc; [|done].
  injection Hfail as <-. apply check_mutable_raises in Hc as ->.
  by eexists.
Qed.

Lemma negate_loop_raises subjects m e m' :
  negate_loop subjects m = Raise e m' → ∃ cause, e = CKRRuntimeError cause.
Proof.
  intros (_ & failing & _ & _ & _ & Hfail)%negate_loop_raise.
  simpl in Hfail. destruct (check_mutable failing) as [e'|] eqn:Hc.
  - injection Hfail as <-. apply check_mutable_raises in Hc as ->.
    by eexists.
  - by destruct (defaultdict_get (variables m') failing).
Qed.

Lemma print_chr_raises v e : print_chr v = inl e → e = OverflowError.
Proof.
  unfold print_chr. destruct (chr v) as [c| |]; [|done|by intros [= <-]].
  by destruct (is_surrogate c).
Qed.

Lemma print_loop_raises subjects m e m' :
  print_loop subjects m = Raise e m' →
  (∃ cause, e = CKRRuntimeError cause) ∨ e = OverflowError.
Proof.
  intros (_ & failing & _ & _ & _ & Hfail)%print_loop_raise.
  simpl in Hfail.
  destruct (get_val (variables m') failing) as [e'|v] eqn:Hget.
  - injection Hfail as <-. apply get_val_error in Hget as [-> _].
    left. by eexists.
  - destruct (print_chr v) as [e'|c] eqn:Hchr; [|done].
    injection Hfail as <-. right. by eapply print_chr_raises.
Qed.

Lemma arith_raises unit fold subjects m e m' :
  arith unit fold subjects m = Raise e m' → ∃ cause, e = CKRRuntimeError cause.
Proof.
  unfold arith. destruct subjects as [|target others]; [done|].
  destruct (check_mutable target) as [e'|] eqn:Hc.
  { intros [= <- _]. apply check_mutable_raises in Hc as ->. by eexists. }
  destruct others as [|s others].
  - by destruct (defaultdict_get (variables m) target).
  - destruct (get_vals (variables m) (target :: s :: others)) as [e'|vs]
      eqn:Hvals; [|done].
    intros [= <- _]. apply get_vals_error in Hvals as (s' & _ & _ & ->).
    by eexists.
Qed.

(** On a non-empty token list every exception is a [CKRRuntimeError],
    but for the [OverflowError] that a print command lets through. *)
Lemma exec_raises labels inst m e m' :
  tokens inst ≠ [] →
  exec labels inst m = Raise e m' →
  (∃ cause, e = CKRRuntimeError cause)
  ∨ (e = OverflowError ∧ command (tokens inst) = Some KW_PRINT).
Proof.
  intros [cmd Hcmd]%command_nonempty. unfold exec. rewrite Hcmd.
  destruct (contains KW_JUMP cmd).
  - unfold jump_condition.
    destruct (index (tokens inst) (-2)) as [op|].
    + destruct (contains KW_EQ op || contains KW_GT op).
      * destruct (get_vals _ _) as [e'|vs] eqn:Hvals.
        -- intros [= <- _]. left.
           apply get_vals_error in Hvals as (s' & _ & _ & ->). by eexists.
        -- destruct (condition_met op vs); [|done].
           destruct (labels !! _); [done|]. intros [= <- _].
           left. by eexists.
      * destruct (labels !! _); [done|]. intros [= <- _]. left. by eexists.
    + destruct (labels !! _); [done|]. intros [= <- _]. left. by eexists.
  - repeat case_bool_decide;
      match goal with
      | |- advance ?r = _ → _ =>
          destruct r as [m1|e1 m1] eqn:Hr; [done|]; intros [= <- _]
      end.
    + left. by eapply declare_loop_raises.
    + left. by eapply arith_raises.
    + left. by eapply arith_raises.
    + left. by eapply arith_raises.
    + left. by eapply negate_loop_raises.
    + apply print_loop_raises in Hr as [Hr | ->]; [by left|].
      right. split; [done|]. by subst cmd.
    + injection Hr as <- _. left. by eexists.
Qed.

Lemma reachable_in_range (instructions : list instruction) labels m0 m :
  (∀ name k, labels !! name = Some k →
             (0 ≤ k ≤ Z.of_nat (length instructions))%Z) →
  rtc (steps_to instructions labels) (with_pc m0 0) m →
  (0 ≤ pc m ≤ Z.of_nat (length instructions))%Z.
Proof.
  intros Hlabels Hrtc.
  assert (0 ≤ pc (with_pc m0 0) ≤ Z.of_nat (length instructions))%Z as Hstart
    by (simpl; lia).
  revert Hstart. generalize (with_pc m0 0) Hrtc. clear Hrtc.
  intros m1 Hrtc. induction Hrtc as [|m1 m2 m3 Hstep _ IH]; [done|].
  intros Hm1. by eapply IH, step_in_range.
Qed.

(** X21. In a run of a program built by the parser there is no
    [IndexError]: the fetch is never out of range and no instruction has an
    empty token list. The exceptions of such a run are [CKRRuntimeError]s
    and, from a print instruction only, the [OverflowError] of [chr]. *)
Theorem parsed_program_errors (groups : list (list str))
        (instructions : list instruction) labels m0 m (e : exn) m' :
  parse groups = (instructions, labels) →
  rtc (steps_to instructions labels) (with_pc m0 0) m →
  step instructions labels m = Some (Raise e m') →
  (∃ cause, e = CKRRuntimeError cause)
  ∨ (e = OverflowError
     ∧ ∃ inst, instructions !! Z.to_nat (pc m) = Some inst
               ∧ command (tokens inst) = Some KW_PRINT).
Proof.
  intros Hparse Hrtc Hstep.
  assert (∀ name k, labels !! name = Some k →
                    (0 ≤ k ≤ Z.of_nat (length instructions))%Z) as Hlabels.
  { pose proof (parse_in_range groups) as H. by rewrite Hparse in H. }
  pose proof (reachable_in_range _ _ _ _ Hlabels Hrtc) as Hpc.
  unfold step in Hstep. case_bool_decide as Hlt; [|done].
  destruct (index_in_range instructions (pc m)) as (inst & Hl & Hi); [lia|].
  rewrite Hi in Hstep. injection Hstep as Hexec.
  assert (tokens inst ≠ []) as Hne.
  { assert (inst ∈ (parse groups).1) as Hin
      by (rewrite Hparse; by eapply list_elem_of_lookup_2).
    rewrite parse_instructions in Hin.
    apply list_elem_of_fmap in Hin as (g & -> & [Hg _]%list_elem_of_filter).
    simpl. by destruct g. }
  destruct (exec_raises _ _ _ _ _ Hne Hexec) as [Hrt|[-> Hprint]];
    [by left|].
  right. split; [done|]. by exists inst.
Qed.

Lemma parsed_program_errors_witness :
  (parse [[Examples.a; KW_PRINT]]
   = ([Examples.inst_of [Examples.a; KW_PRINT]], ∅)
   ∧ rtc (steps_to [Examples.inst_of [Examples.a; KW_PRINT]] ∅)
         (with_pc (Machine (Examples.store_a 2147483648) 0 []) 0)
         (Machine (Examples.store_a 2147483648) 0 [])
   ∧ step [Examples.inst_of [Examples.a; KW_PRINT]] ∅
          (Machine (Examples.store_a 2147483648) 0 [])
     = Some (Raise OverflowError
                   (Machine (Examples.store_a 2147483648) 0 [])))
  ∧ ((∃ cause, OverflowError = CKRRuntimeError cause)
     ∨ (OverflowError = OverflowError
        ∧ ∃ inst,
            [Examples.inst_of [Examples.a; KW_PRINT]]
              !! Z.to_nat (pc (Machine (Examples.store_a 2147483648) 0 []))
            = Some inst
            ∧ command (tokens inst) = Some KW_PRINT)).
Proof.
  assert (parse [[Examples.a; KW_PRINT]]
          = ([Examples.inst_of [Examples.a; KW_PRINT]], ∅)) as H1
    by (vm_compute; reflexivity).
  assert (step [Examples.inst_of [Examples.a; KW_PRINT]] ∅
               (Machine (Examples.store_a 2147483648) 0 [])
          = Some (Raise OverflowError
                        (Machine (Examples.store_a 2147483648) 0 []))) as H3
    by (vm_compute; reflexivity).
  split; [by repeat split|].
  exact (parsed_program_errors _ _ _
           (Machine (Examples.store_a 2147483648) 0 []) _ _ _
           H1 (rtc_refl _ _) H3).
Defined.

(** ** Jumps *)

(** X22. A jump instruction, taken or not, completed or raising, changes
    neither the store nor the output. *)
Theorem jump_changes_nothing labels (inst : instruction) m cmd :
  command (tokens inst) = Some cmd →
  contains KW_JUMP cmd = true →
  variables (machine_of (exec labels inst m)) = variables m
  ∧ output (machine_of (exec labels inst m)) = output m.
Proof.
  intros Hcmd Hjump. rewrite (exec_jump _ _ _ _ Hcmd Hjump).
  destruct (jump_condition _ _) as [e|[]]; [done| |done].
  by destruct (labels !! remove_all KW_JUMP cmd).
Qed.

Lemma jump_changes_nothing_witness :
  (command (tokens (Examples.inst_of
                      [Examples.a; KW_EQ; Examples.jump_to_dots]))
   = Some Examples.jump_to_dots
   ∧ contains KW_JUMP Examples.jump_to_dots = true)
  ∧ variables
      (machine_of
         (exec ∅ (Examples.inst_of [Examples.a; KW_EQ; Examples.jump_to_dots])
               (Machine (Examples.store_a 0) 0 [72%N])))
    = Examples.store_a 0
  ∧ output
      (machine_of
         (exec ∅ (Examples.inst_of [Examples.a; KW_EQ; Examples.jump_to_dots])
               (Machine (Examples.store_a 0) 0 [72%N])))
    = [72%N].
Proof.
  split; [done|].
  exact (jump_changes_nothing ∅
           (Examples.inst_of [Examples.a; KW_EQ; Examples.jump_to_dots])
           (Machine (Examples.store_a 0) 0 [72%N])
           Examples.jump_to_dots eq_refl eq_refl).
Defined.

(** X23. The comparator is recognised by containment but dispatched by
    equality: when the second-to-last token holds a comparator keyword
    without being one, the subjects are still read, and with at least one
    resolved value the jump is taken whatever the values are. *)
Theorem inexact_comparator labels (inst : instruction) m cmd
        (op : str) (values : list Z) :
  command (tokens inst) = Some cmd →
  contains KW_JUMP cmd = true →
  index (tokens inst) (-2) = Some op →
  contains KW_EQ op || contains KW_GT op = true →
  op ≠ KW_EQ → op ≠ KW_GT →
  get_vals (variables m)
           (parse_subjects (join SPACE (drop_last 2 (tokens inst))))
  = inr values →
  values ≠ [] →
  exec labels inst m
  = match labels !! remove_all KW_JUMP cmd with
    | Some target => Next (with_pc m target)
    | None => Raise (CKRRuntimeError (MissingLabel (remove_all KW_JUMP cmd))) m
    end.
Proof.
  intros Hcmd Hjump Hop Hcontains Heq Hgt Hvals Hne.
  rewrite (exec_jump _ _ _ _ Hcmd Hjump).
  rewrite (jump_condition_resolved _ _ _ values Hop Hcontains Hvals).
  unfold condition_met. destruct values as [|v vs]; [done|].
  by rewrite !bool_decide_eq_false_2 by done.
Qed.

Lemma inexact_comparator_witness :
  (command (tokens (Examples.inst_of
                      [Examples.a; MoreExamples.eq_bang;
                       Examples.jump_to_dots]))
   = Some Examples.jump_to_dots
   ∧ contains KW_JUMP Examples.jump_to_dots = true
   ∧ index [Examples.a; MoreExamples.eq_bang; Examples.jump_to_dots] (-2)
     = Some MoreExamples.eq_bang
   ∧ contains KW_EQ MoreExamples.eq_bang
     || contains KW_GT MoreExamples.eq_bang = true
   ∧ MoreExamples.eq_bang ≠ KW_EQ
   ∧ MoreExamples.eq_bang ≠ KW_GT
   ∧ get_vals (Examples.store_a 1) [Examples.a] = inr [1%Z])
  ∧ exec {[ Examples.dots := 4%Z ]}
         (Examples.inst_of
            [Examples.a; MoreExamples.eq_bang; Examples.jump_to_dots])
         (Machine (Examples.store_a 1) 0 [])
    = Next (Machine (Examples.store_a 1) 4 []).
Proof.
  assert (MoreExamples.eq_bang ≠ KW_EQ) as H5 by compute_done.
  assert (MoreExamples.eq_bang ≠ KW_GT) as H6 by compute_done.
  split; [by repeat split|].
  rewrite (inexact_comparator {[ Examples.dots := 4%Z ]}
             (Examples.inst_of
                [Examples.a; MoreExamples.eq_bang; Examples.jump_to_dots])
             (Machine (Examples.store_a 1) 0 [])
             Examples.jump_to_dots MoreExamples.eq_bang [1%Z]
             eq_refl eq_refl eq_refl eq_refl H5 H6);
    [vm_compute; reflexivity|vm_compute; reflexivity|discriminate].
Defined.

End EvaluatorMore.
